(** * ESMplus Core Helper (v1.2.2): configuration, resilient request client
      and bounded worker pool

    A shallow embedding of [src/esmplus-core.js], lines 14-21 (CONFIG),
    75-120 (postJSON), 122-137 (runWithConcurrency) and 321-322
    (setConfig / getConfig), followed by the properties of the specification
    that concern them.

    Conventions of the embedding.
    - A JavaScript object used as a record of settings is a [gmap string jsval].
    - Numbers are integers; [None : number] stands for NaN, which is what
      [ToNumber undefined] gives.  Strings and fractional numbers as
      configuration values are outside the model.
    - An [async] function is a function of the answers its awaits receive.
      For [postJSON] these are the outcomes of the successive [fetch] calls;
      for [runWithConcurrency] they are the settlements of the tasks and
      the order in which the suspended workers are resumed.  Where runs
      under different stores are compared, a task is given as a function
      of the store at the moment it is called. *)

From Stdlib Require Import Ascii String ZArith Lia.
From stdpp Require Import gmap strings list fin_maps pretty.

Open Scope Z_scope.

(** ** JavaScript values and numbers *)

Inductive jsval :=
  | JUndef
  | JNull
  | JBool (b : bool)
  | JNum (n : Z).

#[global] Instance jsval_eq_dec : EqDecision jsval.
Proof. solve_decision. Defined.

(** [None] is NaN. *)
Definition number := option Z.

Definition ToNumber (v : jsval) : number :=
  match v with
  | JUndef => None
  | JNull => Some 0
  | JBool b => Some (Z.b2z b)
  | JNum n => Some n
  end.

(** [a < b], [a <= b], [a > b] on numbers: false as soon as one side is NaN. *)
Definition num_lt (a b : number) : bool :=
  match a, b with Some x, Some y => x <? y | _, _ => false end.
Definition num_le (a b : number) : bool :=
  match a, b with Some x, Some y => x <=? y | _, _ => false end.
Definition num_gt (a b : number) : bool := num_lt b a.

(** [Math.max] and [Math.min] of two arguments: NaN if either is NaN. *)
Definition Math_max (a b : number) : number :=
  match a, b with Some x, Some y => Some (Z.max x y) | _, _ => None end.
Definition Math_min (a b : number) : number :=
  match a, b with Some x, Some y => Some (Z.min x y) | _, _ => None end.

(** [a ?? b] *)
Definition nullish (a b : jsval) : jsval :=
  match a with JUndef | JNull => b | _ => a end.

(** [ToLength], as [Array.from({ length })] applies it: NaN and negative
    numbers give 0. *)
Definition ToLength (n : number) : nat :=
  match n with Some z => Z.to_nat z | None => O end.

(** ** Configuration (lines 14-21, 321-322) *)

Abbreviation obj := (gmap string jsval).

Definition CONFIG0 : obj :=
  {[ "THROTTLE_MS" := JNum 0;
     "CONCURRENCY" := JNum 6;
     "USE_BATCH" := JBool false;
     "TIMEOUT_MS" := JNum 10000;
     "MAX_RETRY" := JNum 4 ]}.

(** The keys the configuration object is created with. *)
Definition config_keys : list string :=
  ["THROTTLE_MS"; "CONCURRENCY"; "USE_BATCH"; "TIMEOUT_MS"; "MAX_RETRY"].

(** Property read [o.k]: [undefined] when [o] has no such property. *)
Definition prop (o : obj) (k : string) : jsval := default JUndef (o !! k).

(** [Object.assign(target, source)]: every own property of [source] is
    written to [target], whatever its key.  The one key this does not
    describe is [__proto__]: the write is a [[Set]], which hands that key to
    the setter of [Object.prototype] and stores no own property, so that
    statements about single keys leave it out. *)
Definition Object_assign (target source : obj) : obj := source ∪ target.

(** [setConfig(c={}) { Object.assign(CONFIG, c); }], as a function of the
    store [CONFIG].  [None] is a call without argument. *)
Definition setConfig (c : option obj) (CONFIG : obj) : obj :=
  Object_assign CONFIG (default ∅ c).

(** [getConfig() { return { ...CONFIG }; }]: a fresh object with the own
    properties of [CONFIG]. *)
Definition getConfig (CONFIG : obj) : obj := Object_assign ∅ CONFIG.

(** ** Errors and the retry test of [postJSON] (line 112) *)

Record error := Err { name : string; message : string }.

#[global] Instance error_eq_dec : EqDecision error.
Proof. solve_decision. Defined.

(** [new Error(msg)] *)
Definition new_Error (msg : string) : error := Err "Error" msg.

(** [String(e)], that is [Error.prototype.toString]. *)
Definition String_of (e : error) : string :=
  if decide (name e = "") then message e
  else if decide (message e = "") then name e
  else name e +:+ ": " +:+ message e.

(** Case folding of the [i] flag, which on these ASCII patterns only
    identifies [A-Z] with [a-z]. *)
Definition fold_case (a : ascii) : ascii :=
  let n := nat_of_ascii a in
  if ((65 <=? n) && (n <=? 90))%nat then ascii_of_nat (n + 32) else a.

Fixpoint starts_with_ci (p s : string) : bool :=
  match p, s with
  | EmptyString, _ => true
  | String _ _, EmptyString => false
  | String a p', String b s' =>
      if decide (fold_case a = fold_case b) then starts_with_ci p' s' else false
  end.

Fixpoint includes_ci (p s : string) : bool :=
  starts_with_ci p s ||
  match s with
  | EmptyString => false
  | String _ s' => includes_ci p s'
  end.

(** [/network|Failed to fetch/i.test(s)] *)
Definition re_network_test (s : string) : bool :=
  includes_ci "network" s || includes_ci "Failed to fetch" s.

(** [(e.name === 'AbortError') || /network|Failed to fetch/i.test(String(e))] *)
Definition retriable (e : error) : bool :=
  bool_decide (name e = "AbortError") || re_network_test (String_of e).

(** ** postJSON (lines 75-120) *)

Section Request.

(** Parsed JSON bodies. *)
Context {J : Type}.

(** What the code reads of a [Response]: [status] (and [ok], which the
    platform derives from it), the result of [text()] ([None] when that
    promise rejects) and the result of [json()]. *)
Record response := Response {
  status : Z;
  text : option string;
  json : error + J
}.

Definition ok (res : response) : bool :=
  (200 <=? status res) && (status res <=? 299).

(** How one guarded [await fetch(...)] ends: with a response, or by
    throwing (the abort of the timeout guard included). *)
Inductive fetched :=
  | Responded (res : response)
  | Threw (e : error).

(** The surroundings of one call: the outcome of the [fetch] of each
    attempt, which may depend on the delay handed to the timeout guard,
    and the [setConfig] calls other code makes while that attempt is
    suspended. *)
Record world := World {
  fetch : Z -> jsval -> fetched;
  during : Z -> list (option obj)
}.

(** How the call ends.  [Undefined] is the end of the function body
    reached after the loop: the promise resolves with [undefined]. *)
Inductive completion :=
  | Return (v : J)
  | Throw (e : error)
  | Undefined.

Inductive event :=
  | Fetch (attempt : Z) (timeout : jsval)
  | Sleep (ms : Z).

Record run := Run {
  store : obj;
  trace : list event;
  outcome : completion
}.

Definition after (evs : list event) (r : run) : run :=
  Run (store r) (evs ++ trace r) (outcome r).

(** [status === 429 || (status >= 500 && status < 600)] *)
Definition retryable_status (status : Z) : bool :=
  (status =? 429) || ((500 <=? status) && (status <? 600)).

(** [`HTTP ${status}: ${text || '요청 실패'}`] *)
Definition http_message (status : Z) (text : string) : string :=
  "HTTP " +:+ pretty status +:+ ": " +:+
  (if decide (text = "") then "요청 실패" else text).

(** The store once the [setConfig] calls made during attempt [a] have run. *)
Definition mutate (w : world) (a : Z) (CONFIG : obj) : obj :=
  foldl (fun C c => setConfig c C) CONFIG (during w a).

(** The [for] loop of lines 88-119.  [TIMEOUT_MS] and [MAX_RETRY] are the
    constants destructured at line 76; [CONFIG] is the live store, which
    the loop carries along and never reads.  [fuel] bounds the number of
    iterations; [None] is fuel exhaustion. *)
Fixpoint attempts (TIMEOUT_MS MAX_RETRY : jsval) (w : world)
    (fuel : nat) (attempt : Z) (CONFIG : obj) : option run :=
  if negb (num_le (Some attempt) (ToNumber MAX_RETRY)) then
    Some (Run CONFIG [] Undefined)
  else
    match fuel with
    | O => None
    | S fuel =>
        let CONFIG := mutate w attempt CONFIG in
        let more := num_lt (Some attempt) (ToNumber MAX_RETRY) in
        let continue ms :=
          after [Fetch attempt TIMEOUT_MS; Sleep ms]
            <$> attempts TIMEOUT_MS MAX_RETRY w fuel (attempt + 1) CONFIG in
        let finish c := Some (Run CONFIG [Fetch attempt TIMEOUT_MS] c) in
        let catch e :=
          if retriable e && more then continue (300 * attempt)
          else finish (Throw e) in
        match fetch w attempt TIMEOUT_MS with
        | Responded res =>
            if ok res then
              finish (match json res with inr v => Return v | inl e => Throw e end)
            else
              let status := status res in
              let text := default "" (text res) in
              if retryable_status status && more then
                continue (Z.min 2000 (200 * 2 ^ (attempt - 1)))
              else catch (new_Error (http_message status text))
        | Threw e => catch e
        end
    end.

(** [postJSON(url, payload, extraHeaders)] called when the store is
    [CONFIG].  The request itself (url, body, headers, tokens) is part of
    what [fetch w] answers to and plays no role in the control flow. *)
Definition postJSON (CONFIG : obj) (w : world) : option run :=
  let TIMEOUT_MS := prop CONFIG "TIMEOUT_MS" in
  let MAX_RETRY := prop CONFIG "MAX_RETRY" in
  attempts TIMEOUT_MS MAX_RETRY w
    (ToLength (ToNumber MAX_RETRY)) 1 CONFIG.

End Request.

Arguments response : clear implicits.
Arguments fetched : clear implicits.
Arguments world : clear implicits.
Arguments completion : clear implicits.
Arguments run : clear implicits.

(** ** runWithConcurrency (lines 122-137) *)

Section Pool.

(** Values the tasks resolve with. *)
Context {V : Type}.

(** A task is an [async] thunk; what the pool sees of it is how the
    promise it returns settles (a thunk that throws at once counts as a
    rejection).  Every task is taken to settle: a task that never does would
    leave its worker, and the call, pending for ever. *)
Inductive settled :=
  | Fulfilled (v : V)
  | Rejected (e : error).

(** The first argument: an array of tasks, or something else. *)
Inductive batch :=
  | NotArray
  | Arr (tasks : list settled).

(** Where a worker (one call of the [async] arrow function of line 127)
    stands: suspended at [await tasks[cur]()], suspended at
    [await SLEEP(...)], returned after [break], or rejected. *)
Inductive worker :=
  | Awaiting (cur : nat) (promise : settled)
  | Sleeping (ms : jsval)
  | Finished
  | Failed (e : error).

(** The promise [runWithConcurrency] itself returns. *)
Inductive join :=
  | Pending
  | Returned (results : list (option V))
  | Thrown (e : error).

(** The store and the variables of one call.  [results] is the array of
    line 125, [None] being a slot never written. *)
Record pool := Pool {
  CONFIG : obj;
  i : nat;
  results : list (option V);
  workers : list worker;
  joined : join
}.

(** What the event loop does next: resume the suspended worker [w] (its
    task has settled, or its timer has fired), or run other code that calls
    [setConfig(c)].  Resuming a worker that is not suspended does nothing.
    The order of the [Resume] steps is the order in which the operations
    complete. *)
Inductive step :=
  | Resume (w : nat)
  | SetConfig (c : option obj).

Section Tasks.

Variable tasks : list settled.

(** Lines 129-131, up to the [await]:
    [const cur = i++; if (cur >= tasks.length) break; ... tasks[cur]()]. *)
Definition loop_head (cur : nat) : worker :=
  match tasks !! cur with
  | Some promise => Awaiting cur promise
  | None => Finished
  end.

(** The first iteration of a new worker, run inside [Array.from]. *)
Definition spawn (p : pool) : pool :=
  Pool (CONFIG p) (S (i p)) (results p)
       (workers p ++ [loop_head (i p)]) (joined p).

(** A later iteration of worker [w]. *)
Definition claim (w : nat) (p : pool) : pool :=
  Pool (CONFIG p) (S (i p)) (results p)
       (<[w := loop_head (i p)]> (workers p)) (joined p).

Definition is_finished (k : worker) : bool :=
  match k with Finished => true | _ => false end.

(** [await Promise.all(workers); return results;] once every worker has
    returned. *)
Definition settle (p : pool) : pool :=
  match joined p with
  | Pending =>
      if forallb is_finished (workers p)
      then Pool (CONFIG p) (i p) (results p) (workers p) (Returned (results p))
      else p
  | _ => p
  end.

(** A worker rejects with [e]: [Promise.all] rejects with the first such
    [e], and so does the call. *)
Definition reject (w : nat) (e : error) (p : pool) : pool :=
  Pool (CONFIG p) (i p) (results p) (<[w := Failed e]> (workers p))
       (match joined p with Pending => Thrown e | j => j end).

(** [results[cur] = v] *)
Definition write (cur : nat) (v : V) (p : pool) : pool :=
  Pool (CONFIG p) (i p) (<[cur := Some v]> (results p)) (workers p) (joined p).

(** [await SLEEP(CONFIG.THROTTLE_MS)], up to the [await]. *)
Definition sleep (w : nat) (p : pool) : pool :=
  Pool (CONFIG p) (i p) (results p)
       (<[w := Sleeping (prop (CONFIG p) "THROTTLE_MS")]> (workers p))
       (joined p).

(** Worker [w] is resumed (lines 131-133 and back to the loop head). *)
Definition resume (w : nat) (p : pool) : pool :=
  match workers p !! w with
  | Some (Awaiting cur (Fulfilled v)) =>
      let p := write cur v p in
      if num_gt (ToNumber (prop (CONFIG p) "THROTTLE_MS")) (Some 0)
      then sleep w p
      else settle (claim w p)
  | Some (Awaiting cur (Rejected e)) => reject w e p
  | Some (Sleeping _) => settle (claim w p)
  | Some Finished | Some (Failed _) | None => p
  end.

Definition exec (s : step) (p : pool) : pool :=
  match s with
  | Resume w => resume w p
  | SetConfig c =>
      Pool (setConfig c (CONFIG p)) (i p) (results p) (workers p) (joined p)
  end.

Definition execs (ss : list step) (p : pool) : pool :=
  foldl (fun p s => exec s p) p ss.

Definition suspended (k : worker) : Prop :=
  match k with Awaiting _ _ | Sleeping _ => True | _ => False end.

#[global] Instance suspended_dec k : Decision (suspended k).
Proof. destruct k; simpl; apply _. Defined.

(** Runs what is left of the call, always resuming the first suspended
    worker, until no worker is suspended. *)
Fixpoint drain (fuel : nat) (p : pool) : pool :=
  match fuel with
  | O => p
  | S fuel =>
      match list_find suspended (workers p) with
      | Some (w, _) => drain fuel (resume w p)
      | None => p
      end
  end.

(** Lines 124-127: the pool once [Array.from] has created [size]
    workers. *)
Definition start (CONFIG : obj) (size : nat) : pool :=
  settle (Nat.iter size spawn
            (Pool CONFIG 0 (replicate (length tasks) None) [] Pending)).

End Tasks.

(** [Math.min(Math.max(1, limit ?? CONFIG.CONCURRENCY), tasks.length)] *)
Definition size_of (CONFIG : obj) (limit : jsval) (len : nat) : number :=
  Math_min (Math_max (Some 1) (ToNumber (nullish limit (prop CONFIG "CONCURRENCY"))))
           (Some (Z.of_nat len)).

(** Enough steps for [drain] to finish whatever the schedule did before. *)
Definition drain_fuel (len size : nat) : nat := (3 * len + 2 * size)%nat.

(** The call on the non-empty array [tasks] at the moment the schedule
    [ss] has been carried out. *)
Definition moment (CONFIG : obj) (tasks : list settled) (limit : jsval)
    (ss : list step) : pool :=
  execs tasks ss
    (start tasks CONFIG (ToLength (size_of CONFIG limit (length tasks)))).

(** [runWithConcurrency(tasks, limit)] called when the store is [CONFIG],
    under the schedule [ss]; when [ss] ends while workers are still
    suspended, they are resumed in turn until none is left.  The result
    is the final state of the call: [joined] is what the caller's [await]
    receives, [workers] the workers that were created. *)
Definition runWithConcurrency (CONFIG : obj) (b : batch) (limit : jsval)
    (ss : list step) : pool :=
  match b with
  | NotArray | Arr [] => Pool CONFIG 0 [] [] (Returned [])
  | Arr tasks =>
      let size := ToLength (size_of CONFIG limit (length tasks)) in
      drain tasks (drain_fuel (length tasks) size)
            (moment CONFIG tasks limit ss)
  end.

End Pool.

Arguments settled : clear implicits.
Arguments batch : clear implicits.
Arguments worker : clear implicits.
Arguments join : clear implicits.
Arguments pool : clear implicits.

(** ** Reference notions of the specification *)

(** [clamp(x, lo, hi)] *)
Definition clamp (x lo hi : Z) : Z := Z.max lo (Z.min x hi).

(** Backoff Policy, HTTP-level curve: [min(2000, 200 * 2^(attempt-1))]. *)
Definition http_backoff (attempt : Z) : Z := Z.min 2000 (200 * 2 ^ (attempt - 1)).

(** Backoff Policy, transport-level curve: [300 * attempt]. *)
Definition transport_backoff (attempt : Z) : Z := 300 * attempt.

(** The trace of [n] failed attempts numbered from [a], with a sleep of
    [delay k] between attempt [k] and attempt [k + 1] and none after the
    last. *)
Fixpoint retry_trace (delay : Z -> Z) (timeout : jsval) (a : Z) (n : nat)
    : list event :=
  match n with
  | O => []
  | S n' =>
      Fetch a timeout ::
      match n' with
      | O => []
      | S _ => Sleep (delay a) :: retry_trace delay timeout (a + 1) n'
      end
  end.

(** Number of requests issued in a trace. *)
Fixpoint fetches (tr : list event) : nat :=
  match tr with
  | [] => O
  | Fetch _ _ :: tr => S (fetches tr)
  | Sleep _ :: tr => fetches tr
  end.

(** The delays slept in a trace, in order. *)
Fixpoint sleeps (tr : list event) : list Z :=
  match tr with
  | [] => []
  | Fetch _ _ :: tr => sleeps tr
  | Sleep ms :: tr => ms :: sleeps tr
  end.

(** The slot a task is meant to fill. *)
Definition slot_of {V} (t : settled V) : option V :=
  match t with Fulfilled v => Some v | Rejected _ => None end.

Definition fulfils {V} (t : settled V) : Prop :=
  match t with Fulfilled _ => True | Rejected _ => False end.

(** ** Notions about pools *)

Section Notions.

Context {V : Type}.
Implicit Types (p q : pool V) (k : worker V) (ws : list (worker V))
  (tasks : list (settled V)).

Local Open Scope nat_scope.

(** Steps a worker can still take before it next reaches the loop head. *)
Definition weight k : nat :=
  match k with Awaiting _ _ => 2 | Sleeping _ => 1 | _ => 0 end.

Fixpoint load ws : nat :=
  match ws with
  | [] => 0
  | k :: ws => weight k + load ws
  end.

(** Bound on the resumptions a pool can still perform. *)
Definition measure tasks p : nat := 3 * (length tasks - i p) + load (workers p).

(** No worker of the pool is suspended any more. *)
Definition quiescent p : Prop :=
  forall w k, workers p !! w = Some k -> ~ suspended k.

(** What holds of a pool at every moment of a call on [tasks]. *)
Record core tasks p : Prop := Core {
  (* the result array keeps the length of the batch *)
  core_len : length (results p) = length tasks;
  (* a written slot holds the value of the task at that index *)
  core_written : forall j v,
    results p !! j = Some (Some v) -> tasks !! j = Some (Fulfilled v);
  (* a worker awaits the promise of an index it claimed *)
  core_awaiting : forall w cur s,
    workers p !! w = Some (Awaiting cur s) -> tasks !! cur = Some s /\ cur < i p;
  (* every claimed index is written, in flight, or made its worker fail *)
  core_claimed : forall j t,
    j < i p -> tasks !! j = Some t ->
    (exists v, t = Fulfilled v /\ results p !! j = Some (Some v)) \/
    (exists w, workers p !! w = Some (Awaiting j t)) \/
    (exists w e, t = Rejected e /\ workers p !! w = Some (Failed e));
  (* a worker returns only once the cursor has passed the batch *)
  core_finished : forall w,
    workers p !! w = Some Finished -> length tasks <= i p;
  (* a failed worker failed with the failure of a task, and the call threw *)
  core_failed : forall w e,
    workers p !! w = Some (Failed e) ->
    Rejected e ∈ tasks /\ exists e', joined p = Thrown e';
  (* the call returns the result array, once all workers have returned *)
  core_returned : forall rs,
    joined p = Returned rs ->
    rs = results p /\ forallb is_finished (workers p) = true;
  (* the call throws the failure of a task *)
  core_thrown : forall e, joined p = Thrown e -> Rejected e ∈ tasks
}.

Definition inv tasks p : Prop :=
  core tasks p /\ (joined p = Pending -> forallb is_finished (workers p) = false).

(** Worker [w] is done with the index it had claimed. *)
Definition released p (w : nat) : Prop :=
  exists k, workers p !! w = Some k /\
    match k with
    | Awaiting cur t => exists v, t = Fulfilled v /\ results p !! cur = Some (Some v)
    | Sleeping _ => True
    | _ => False
    end.

(** Two pools in the same state, stores apart. *)
Definition same_run p q : Prop :=
  i p = i q /\ results p = results q /\ workers p = workers q /\
  joined p = joined q.


End Notions.

(** ** Sample inputs *)

(** A server that answers every request with status 500 and the given body
    text. *)
Definition always_500 (body : string) : world unit :=
  World (fun _ _ => Responded (Response 500 (Some body) (inl (new_Error "no body"))))
        (fun _ => []).

(** A server that never answers: every attempt is aborted by the timeout
    guard. *)
Definition never_responds : world unit :=
  World (fun _ _ => Threw (Err "AbortError" "The user aborted a request."))
        (fun _ => []).

(** A server that answers every request with status 404 and the given body
    text. *)
Definition always_404 (body : string) : world unit :=
  World (fun _ _ => Responded (Response 404 (Some body) (inl (new_Error "no body"))))
        (fun _ => []).

(** A server that is busy (status 503) until attempt [k], which it answers
    with status 200 and the JSON value 7. *)
Definition flaky_server (k : Z) : world Z :=
  World (fun attempt _ =>
           if attempt <? k
           then Responded (Response 503 (Some "busy") (inl (new_Error "no body")))
           else Responded (Response 200 (Some "{}") (inr 7)))
        (fun _ => []).

(** Three tasks that fulfil with 10, 11 and 12. *)
Definition three_tasks : list (settled Z) :=
  [Fulfilled 10; Fulfilled 11; Fulfilled 12].

(** A batch whose second task rejects. *)
Definition failing_batch : list (settled Z) :=
  [Fulfilled 1; Rejected (new_Error "boom"); Fulfilled 3].

(** ** More notions about pools *)

Section MoreNotions.

Context {V : Type}.
Implicit Types (p : pool V) (k : worker V) (ws : list (worker V))
  (tasks : list (settled V)).

Local Open Scope nat_scope.

(** Number of workers suspended at [await tasks[cur]()]: the operations in
    flight. *)
Fixpoint awaiting ws : nat :=
  match ws with
  | [] => 0
  | Awaiting _ _ :: ws => S (awaiting ws)
  | _ :: ws => awaiting ws
  end.

Definition in_flight p : nat := awaiting (workers p).

(** No index is held by two workers, the slot of an index that a worker
    holds is still empty, and so is the slot of an index not yet claimed.
    [except] is a worker whose slot may have been written already: the one
    being resumed, between lines 131 and 129. *)
Record exclusive_but (except : option nat) tasks p : Prop := Exclusive {
  excl_distinct : forall w w' cur s s',
    workers p !! w = Some (Awaiting cur s) ->
    workers p !! w' = Some (Awaiting cur s') -> w = w';
  excl_empty : forall w cur s,
    Some w <> except ->
    workers p !! w = Some (Awaiting cur s) -> results p !! cur = Some None;
  excl_unclaimed : forall j,
    i p <= j -> j < length tasks -> results p !! j = Some None
}.

End MoreNotions.

(** * The rest of the file *)

(** ** Request headers of postJSON (lines 65-86) *)

(** What [collectTokens] reads of the page.  [token_inputs] is the result of
    [querySelectorAll('input[name="__RequestVerificationToken"]')]: the
    values of the matching inputs in document order.  [token_meta] is the
    result of [querySelector('meta[name="csrf-token"], ...')]: the [content]
    of the first matching element, if there is one.  [None] at the outer
    level is a query that throws. *)
Record page := Page {
  token_inputs : option (list string);
  token_meta : option (option string)
}.

(** [collectTokens()], lines 65-73.  An exception leaves the [try] block and
    the tokens pushed so far are returned. *)
Definition collectTokens (d : page) : list string :=
  match token_inputs d with
  | None => []
  | Some values =>
      let tokens := filter (fun v => v <> "") values in
      match token_meta d with
      | Some (Some content) =>
          if decide (content = "") then tokens else tokens ++ [content]
      | Some None | None => tokens
      end
  end.

Abbreviation headers := (gmap string string).

Definition default_headers : headers :=
  {[ "Content-Type" := "application/json;charset=UTF-8";
     "X-Requested-With" := "XMLHttpRequest" ]}.

(** The header names a token is sent under. *)
Definition token_headers : list string :=
  ["RequestVerificationToken"; "X-CSRF-TOKEN"; "X-Request-Verification-Token"].

(** The body of the [forEach] of lines 82-86. *)
Definition with_token (h : headers) (tk : string) : headers :=
  <["X-Request-Verification-Token" := tk]>
    (<["X-CSRF-TOKEN" := tk]> (<["RequestVerificationToken" := tk]> h)).

(** [baseHeaders] as lines 77-86 leave it; [None] is an [extraHeaders] that
    is absent (or falsy). *)
Definition baseHeaders (extraHeaders : option headers) (d : page) : headers :=
  foldl with_token (default ∅ extraHeaders ∪ default_headers) (collectTokens d).

(** How [postJSON] ends at an attempt that it does not retry even though
    attempts remain; [None] when the attempt would be retried. *)
Definition final_outcome {J} (f : fetched J) : option (completion J) :=
  match f with
  | Responded res =>
      if ok res then
        Some (match json res with inr v => Return v | inl e => Throw e end)
      else if retryable_status (status res) then None
      else
        let e := new_Error (http_message (status res) (default "" (text res))) in
        if retriable e then None else Some (Throw e)
  | Threw e => if retriable e then None else Some (Throw e)
  end.

(** ** Storage helpers (lines 59-63) *)

(** [localStorage] as the helpers meet it: its items, whether every access
    throws ([denied], storage disabled for the page), and which writes throw
    for lack of room ([refuses]). *)
Record storage := Storage {
  items : gmap string string;
  denied : bool;
  refuses : string -> string -> bool
}.

(** [getLS(k, d='')]; [None] is an omitted [d]. *)
Definition getLS (k : string) (d : option string) (s : storage) : string :=
  let d := default "" d in
  if denied s then d else default d (items s !! k).

(** [setLS(k, v)] *)
Definition setLS (k v : string) (s : storage) : storage :=
  if denied s || refuses s k v then s
  else Storage (<[k := v]> (items s)) (denied s) (refuses s).

(** ** Minimize helper (lines 241-254) *)

(** [applyMinState(bodyEl, storageKey, toggle=false)].  [bodyEl] is given by
    its [style.display], [None] being a missing element.  The result is the
    [style.display] the call leaves, the storage, and the value returned. *)
Definition applyMinState (bodyEl : option string) (storageKey : string)
    (toggle : bool) (s : storage) : option string * storage * bool :=
  match bodyEl with
  | None => (None, s, false)
  | Some display =>
      let key := "min:" +:+ storageKey in
      if toggle then
        let willMin := negb (bool_decide (display = "none")) in
        (Some (if willMin then "none" else ""),
         setLS key (if willMin then "1" else "0") s,
         negb willMin)
      else
        let savedMin := bool_decide (getLS key (Some "0") s = "1") in
        (Some (if savedMin then "none" else ""), s, negb savedMin)
  end.

(** ** fixWidth (lines 145-148) *)

(** A JavaScript string: its UTF-16 code units. *)
Abbreviation str16 := (list N).

(** The code units of ['…'] and [' ']. *)
Definition ELLIPSIS : N := 8230.
Definition SPACE : N := 32.

(** [t.slice(0, end)] for an integer [end]. *)
Definition slice0 (t : str16) (end_ : Z) : str16 :=
  let len := Z.of_nat (length t) in
  let final := if end_ <? 0 then Z.max (len + end_) 0 else Z.min end_ len in
  take (Z.to_nat final) t.

(** [t.padEnd(n, fill)] for an integer [n] and a one-unit [fill]. *)
Definition padEnd (t : str16) (n : Z) (fill : N) : str16 :=
  t ++ replicate (Z.to_nat (n - Z.of_nat (length t))) fill.

(** [fixWidth(s, n)] for a string [s] ([None]: [null] or [undefined]) and an
    integer [n]. *)
Definition fixWidth (s : option str16) (n : Z) : str16 :=
  let t := default [] s in
  if n <? Z.of_nat (length t) then slice0 t (n - 1) ++ [ELLIPSIS]
  else padEnd t n SPACE.

(** ** z-index stack and initial placement (lines 23-44) *)

Definition Z_BASE : Z := 2147480000.

(** What the helpers read and write of an element. *)
Record element := Element {
  style_left : string;
  style_top : string;
  style_right : string;
  style_zIndex : string;
  data_esm_panel : bool;   (* hasAttribute('data-esm-panel') *)
  in_document : bool       (* found by document.querySelectorAll *)
}.

(** The variable [zTop] and the elements, by identity. *)
Record ui := UI {
  zTop : Z;
  elements : gmap nat element
}.

Definition set_zIndex (z : string) (e : element) : element :=
  Element (style_left e) (style_top e) (style_right e) z
          (data_esm_panel e) (in_document e).

(** [bringToFront(el)]; [None] is a missing element. *)
Definition bringToFront (el : option nat) (u : ui) : ui :=
  match el with
  | None => u
  | Some id =>
      let z := zTop u + 1 in
      UI z (alter (set_zIndex (pretty z)) id (elements u))
  end.

Definition is_panel (x : nat * element) : Prop :=
  data_esm_panel x.2 = true /\ in_document x.2 = true.

#[global] Instance is_panel_dec x : Decision (is_panel x).
Proof. unfold is_panel. apply _. Defined.

(** [document.querySelectorAll('[data-esm-panel]').length] *)
Definition panel_count (els : gmap nat element) : Z :=
  Z.of_nat (size (filter is_panel els)).

(** [autoPlaceIfNeeded(panel)] *)
Definition autoPlaceIfNeeded (panel : option nat) (u : ui) : ui :=
  match panel with
  | None => u
  | Some id =>
      match elements u !! id with
      | None => u
      | Some e =>
          if bool_decide (style_left e <> "") && bool_decide (style_top e <> "")
          then u
          else
            let marked :=
              <[id := Element (style_left e) (style_top e) (style_right e)
                              (style_zIndex e) true (in_document e)]> (elements u) in
            let count := panel_count marked in
            let delta := (count - 1) * 24 in
            UI (zTop u)
               (<[id := Element (pretty (20 + delta) +:+ "px")
                                (pretty (20 + delta) +:+ "px")
                                "auto" (style_zIndex e) true (in_document e)]>
                  (elements u))
      end
  end.

(** ** Drag handlers (lines 173-217) *)

(** The variables of one [enableDrag] closure. *)
Record drag := Drag {
  dragging : bool;
  startX : Z; startY : Z;
  baseLeft : Z; baseTop : Z
}.

(** What the handlers read of the window and of the panel, in whole
    pixels. *)
Record viewport := Viewport {
  scrollX : Z; scrollY : Z;
  innerWidth : Z; innerHeight : Z;
  offsetWidth : Z; offsetHeight : Z;   (* of the panel *)
  rect_left : Z; rect_top : Z          (* panel.getBoundingClientRect() *)
}.

(** What the handlers read of a pointer event; [None] is a property that
    is [null] or [undefined]. *)
Record pointer := Pointer {
  on_interactive : bool;   (* e.target.closest(INTERACTIVE_SELECTOR) *)
  button : option Z;
  clientX : option Z;
  clientY : option Z
}.

Definition margin : Z := 10.

(** The closure variables once a drag has started (lines 186-194). *)
Definition grab (e : pointer) (v : viewport) : drag :=
  Drag true
       (default 0 (clientX e) + scrollX v) (default 0 (clientY e) + scrollY v)
       (rect_left v + scrollX v) (rect_top v + scrollY v).

(** [onDown(e)] of the closure for [panelEl]: the closure variables and the
    z-index stack it leaves. *)
Definition onDown (panelEl : nat) (e : pointer) (v : viewport)
    (d : drag) (u : ui) : drag * ui :=
  if on_interactive e then (d, u)
  else
    match button e with
    | Some b =>
        if negb (b =? 0) then (d, u)
        else (grab e v, bringToFront (Some panelEl) u)
    | None => (grab e v, bringToFront (Some panelEl) u)
    end.

(** The numbers [nx] and [ny] of [onMove(e)] (lines 202-212); [None] when
    nothing is dragged. *)
Definition onMove_target (e : pointer) (v : viewport) (d : drag) : option (Z * Z) :=
  if negb (dragging d) then None
  else
    let curX := default 0 (clientX e) + scrollX v in
    let curY := default 0 (clientY e) + scrollY v in
    let nx := baseLeft d + (curX - startX d) in
    let ny := baseTop d + (curY - startY d) in
    let maxX := scrollX v + innerWidth v - offsetWidth v - margin in
    let maxY := scrollY v + innerHeight v - offsetHeight v - margin in
    Some (Z.max (scrollX v + margin) (Z.min nx (Z.max (scrollX v + margin) maxX)),
          Z.max (scrollY v + margin) (Z.min ny (Z.max (scrollY v + margin) maxY))).

(** [onMove(e)]: the panel's style is set from [nx] and [ny]. *)
Definition onMove (panelEl : nat) (e : pointer) (v : viewport)
    (d : drag) (u : ui) : ui :=
  match onMove_target e v d with
  | None => u
  | Some (nx, ny) =>
      UI (zTop u)
         (alter (fun x => Element (pretty nx +:+ "px") (pretty ny +:+ "px") "auto"
                                  (style_zIndex x) (data_esm_panel x) (in_document x))
                panelEl (elements u))
  end.

(** ** Notions about failures in a pool *)

Section FailureNotions.

Context {V : Type}.
Implicit Types (k : worker V) (ws : list (worker V)) (tasks : list (settled V)).

Local Open Scope nat_scope.




End FailureNotions.

(** ** Notions about the attempts of postJSON *)

(** The pause after an attempt that is retried: line 106 after a response
    with status 429 or 5xx, line 114 in the [catch] block. *)
Definition pause {J} (f : fetched J) (attempt : Z) : Z :=
  match f with
  | Responded res =>
      if retryable_status (status res) then http_backoff attempt
      else transport_backoff attempt
  | Threw _ => transport_backoff attempt
  end.

(** How the call ends at an attempt it does not retry: line 100 for a
    success status, lines 109 and 117 for another status, line 117 for an
    exception of [fetch]. *)
Definition ends_as {J} (f : fetched J) : completion J :=
  match f with
  | Responded res =>
      if ok res then
        match json res with inr v => Return v | inl e => Throw e end
      else Throw (new_Error (http_message (status res) (default "" (text res))))
  | Threw e => Throw e
  end.

(** ** runWithConcurrency on tasks that read the store (lines 122-137) *)

Section Thunks.

Context {V : Type}.

(** A task that reads [CONFIG] when it is called, as a thunk that makes a
    [postJSON] request does (line 76): how the promise of [tasks[cur]()]
    settles is a function of the store at the moment of the call, which is
    the moment its index is claimed (line 131).  A task that reads the store
    later than that starts work of its own after its call and is not
    described by this. *)
Definition thunk := obj -> settled V.

Variable thunks : list thunk.

(** Lines 129-131, up to the [await], when the store is [C]. *)
Definition loop_head_live (C : obj) (cur : nat) : worker V :=
  match thunks !! cur with
  | Some t => Awaiting cur (t C)
  | None => Finished
  end.

Definition spawn_live (p : pool V) : pool V :=
  Pool (CONFIG p) (S (i p)) (results p)
       (workers p ++ [loop_head_live (CONFIG p) (i p)]) (joined p).

Definition claim_live (w : nat) (p : pool V) : pool V :=
  Pool (CONFIG p) (S (i p)) (results p)
       (<[w := loop_head_live (CONFIG p) (i p)]> (workers p)) (joined p).

Definition resume_live (w : nat) (p : pool V) : pool V :=
  match workers p !! w with
  | Some (Awaiting cur (Fulfilled v)) =>
      let p := write cur v p in
      if num_gt (ToNumber (prop (CONFIG p) "THROTTLE_MS")) (Some 0)
      then sleep w p
      else settle (claim_live w p)
  | Some (Awaiting cur (Rejected e)) => reject w e p
  | Some (Sleeping _) => settle (claim_live w p)
  | Some Finished | Some (Failed _) | None => p
  end.

Definition exec_live (s : step) (p : pool V) : pool V :=
  match s with
  | Resume w => resume_live w p
  | SetConfig c =>
      Pool (setConfig c (CONFIG p)) (i p) (results p) (workers p) (joined p)
  end.

Definition execs_live (ss : list step) (p : pool V) : pool V :=
  foldl (fun p s => exec_live s p) p ss.

Fixpoint drain_live (fuel : nat) (p : pool V) : pool V :=
  match fuel with
  | O => p
  | S fuel =>
      match list_find suspended (workers p) with
      | Some (w, _) => drain_live fuel (resume_live w p)
      | None => p
      end
  end.

Definition start_live (CONFIG : obj) (size : nat) : pool V :=
  settle (Nat.iter size spawn_live
            (Pool CONFIG 0 (replicate (length thunks) None) [] Pending)).

(** The call on the non-empty array [thunks] at the moment the schedule
    [ss] has been carried out. *)
Definition moment_live (CONFIG : obj) (limit : jsval) (ss : list step) : pool V :=
  execs_live ss
    (start_live CONFIG (ToLength (size_of CONFIG limit (length thunks)))).

End Thunks.

Arguments thunk : clear implicits.

(** A task that settles the same way whatever the store holds. *)
Definition settling {V} (s : settled V) : thunk V := fun _ => s.

(** [() => postJSON(url, payload)] as a task; its value is [None] when the
    call completes without a value.  (The loop never runs out of fuel, so
    that the last case is the call that falls through.) *)
Definition postJSON_task {J} (w : world J) : thunk (option J) :=
  fun CONFIG =>
    match outcome <$> postJSON CONFIG w with
    | Some (Return v) => Fulfilled (Some v)
    | Some (Throw e) => Rejected e
    | Some Undefined | None => Fulfilled None
    end.

(** Two stores that differ at most at the keys of the partial object [c]. *)
Definition outside (c : option obj) (C1 C2 : obj) : Prop :=
  forall k, default ∅ c !! k = None -> C1 !! k = C2 !! k.

(** A task that reads none of the keys of [c]. *)
Definition blind_to {V} (c : option obj) (t : thunk V) : Prop :=
  forall C1 C2, outside c C1 C2 -> t C1 = t C2.

(** Two pools in the same state whose stores differ at most at the keys
    of [c]. *)
Definition alike {V} (c : option obj) (p q : pool V) : Prop :=
  same_run p q /\ outside c (CONFIG p) (CONFIG q).

(** Three requests to a server that is busy twice before it answers. *)
Definition three_requests : list (thunk (option Z)) :=
  [postJSON_task (flaky_server 3); postJSON_task (flaky_server 3);
   postJSON_task (flaky_server 3)].

(** * Properties *)

(** ** Configuration *)

Lemma lookup_setConfig (c CONFIG : obj) (k : string) :
  setConfig (Some c) CONFIG !! k =
  match c !! k with Some v => Some v | None => CONFIG !! k end.
Proof.
  unfold setConfig, Object_assign. simpl.
  destruct (c !! k) as [v|] eqn:E.
  - by apply lookup_union_Some_l.
  - by rewrite lookup_union_r.
Qed.

Lemma getConfig_id (CONFIG : obj) : getConfig CONFIG = CONFIG.
Proof. unfold getConfig, Object_assign. apply (right_id_L ∅ (∪)). Qed.

Lemma setConfig_None (CONFIG : obj) : setConfig None CONFIG = CONFIG.
Proof. unfold setConfig, Object_assign. simpl. apply (left_id_L ∅ (∪)). Qed.

(** C6, as amended: [setConfig] merges every key of the partial object
    other than [__proto__], whether or not it is one of the configuration
    keys: in the snapshot [getConfig()] returns afterwards, such a key of the
    partial has the partial's value, and a key the partial does not have
    keeps its previous value.  No key is filtered: a key that is not a
    configuration key is stored like the others. *)
Theorem setConfig_merges_every_key (c CONFIG : obj) (k : string) :
  k <> "__proto__" ->
  getConfig (setConfig (Some c) CONFIG) !! k =
  match c !! k with Some v => Some v | None => CONFIG !! k end.
Proof. intros _. rewrite getConfig_id. apply lookup_setConfig. Qed.

Lemma setConfig_merges_every_key_witness :
  getConfig (setConfig (Some {[ "maxRetry" := JNum 2 ]}) CONFIG0) !! "maxRetry" =
  match ({[ "maxRetry" := JNum 2 ]} : obj) !! "maxRetry" with
  | Some v => Some v
  | None => CONFIG0 !! "maxRetry"
  end.
Proof.
  apply (setConfig_merges_every_key {[ "maxRetry" := JNum 2 ]} CONFIG0 "maxRetry").
  discriminate.
Defined.

(** C6, counterexample: [maxRetry] is not a key of [CONFIG], yet after
    [setConfig({maxRetry: 2})] the snapshot has a property [maxRetry] that it
    did not have before. *)
Lemma setConfig_unknown_key_stored :
  ("maxRetry" ∉ config_keys) ∧
  (getConfig CONFIG0 !! "maxRetry" = None) ∧
  (getConfig (setConfig (Some {[ "maxRetry" := JNum 2 ]}) CONFIG0) !! "maxRetry"
     = Some (JNum 2)).
Proof.
  split; [|split].
  - unfold config_keys. rewrite !elem_of_cons, elem_of_nil.
    intros H. repeat destruct H as [H|H]; try discriminate H; exact H.
  - reflexivity.
  - reflexivity.
Qed.

(** ** The attempt loop of postJSON *)

Section RequestFacts.

Context {J : Type}.
Implicit Types (w : world J) (r : run J) (CONFIG : obj).

Lemma attempts_exit TIMEOUT_MS MAX_RETRY w fuel a CONFIG :
  num_le (Some a) (ToNumber MAX_RETRY) = false ->
  attempts TIMEOUT_MS MAX_RETRY w fuel a CONFIG = Some (Run CONFIG [] Undefined).
Proof. intros H. destruct fuel; cbn [attempts]; by rewrite H. Qed.

Lemma attempts_step TIMEOUT_MS MAX_RETRY w fuel a CONFIG :
  num_le (Some a) (ToNumber MAX_RETRY) = true ->
  attempts TIMEOUT_MS MAX_RETRY w (S fuel) a CONFIG =
  let CONFIG := mutate w a CONFIG in
  let more := num_lt (Some a) (ToNumber MAX_RETRY) in
  let continue ms :=
    after [Fetch a TIMEOUT_MS; Sleep ms]
      <$> attempts TIMEOUT_MS MAX_RETRY w fuel (a + 1) CONFIG in
  let finish c := Some (Run CONFIG [Fetch a TIMEOUT_MS] c) in
  let catch e :=
    if retriable e && more then continue (300 * a) else finish (Throw e) in
  match fetch w a TIMEOUT_MS with
  | Responded res =>
      if ok res then
        finish (match json res with inr v => Return v | inl e => Throw e end)
      else
        if retryable_status (status res) && more then
          continue (Z.min 2000 (200 * 2 ^ (a - 1)))
        else catch (new_Error (http_message (status res) (default "" (text res))))
  | Threw e => catch e
  end.
Proof. intros H. cbn [attempts]. by rewrite H. Qed.

Lemma retryable_not_ok (res : response J) :
  retryable_status (status res) = true -> ok res = false.
Proof.
  unfold retryable_status, ok. intros H.
  apply andb_false_iff.
  apply orb_true_iff in H as [H|H].
  - apply Z.eqb_eq in H. right. apply Z.leb_gt. lia.
  - apply andb_true_iff in H as [H _]. apply Z.leb_le in H.
    right. apply Z.leb_gt. lia.
Qed.

(** With an integer [MAX_RETRY] and enough fuel, the loop entered at an
    attempt number within bounds ends by [return] or by [throw]. *)
Lemma attempts_returns_or_throws TIMEOUT_MS MAX_RETRY (m : Z) w :
  ToNumber MAX_RETRY = Some m ->
  forall fuel a CONFIG,
    a <= m -> (Z.to_nat (m - a + 1) <= fuel)%nat ->
    exists r, attempts TIMEOUT_MS MAX_RETRY w fuel a CONFIG = Some r /\
              outcome r <> Undefined.
Proof.
  intros HM. induction fuel as [|fuel IH]; intros a CONFIG Ha Hfuel; [lia|].
  rewrite attempts_step by (rewrite HM; simpl; by apply Z.leb_le).
  cbv zeta. rewrite HM. simpl num_lt.
  assert (Hcont : forall ms C, (a <? m) = true ->
    exists r, after [Fetch a TIMEOUT_MS; Sleep ms]
                <$> attempts TIMEOUT_MS MAX_RETRY w fuel (a + 1) C = Some r /\
              outcome r <> Undefined).
  { intros ms C Hlt. apply Z.ltb_lt in Hlt.
    destruct (IH (a + 1) C) as (r & -> & Hr); [lia|lia|].
    eexists; split; [reflexivity|exact Hr]. }
  assert (Hcatch : forall e C,
    exists r, (if retriable e && (a <? m)
               then after [Fetch a TIMEOUT_MS; Sleep (300 * a)]
                      <$> attempts TIMEOUT_MS MAX_RETRY w fuel (a + 1) C
               else Some (Run C [Fetch a TIMEOUT_MS] (Throw e))) = Some r /\
              outcome r <> Undefined).
  { intros e C. destruct (retriable e && (a <? m)) eqn:E.
    - apply andb_true_iff in E as [_ E]. by apply Hcont.
    - eexists; split; [reflexivity|discriminate]. }
  destruct (fetch w a TIMEOUT_MS) as [res|e]; [|apply Hcatch].
  destruct (ok res).
  - eexists; split; [reflexivity|]. simpl. destruct (json res); discriminate.
  - destruct (retryable_status (status res) && (a <? m)) eqn:E.
    + apply andb_true_iff in E as [_ E]. by apply Hcont.
    + apply Hcatch.
Qed.

Lemma postJSON_fuel (m : Z) : (Z.to_nat (m - 1 + 1) <= ToLength (Some m))%nat.
Proof. simpl. lia. Qed.

(** The fuel [postJSON] hands to the loop always suffices. *)
Lemma postJSON_total CONFIG w : is_Some (postJSON CONFIG w).
Proof.
  unfold postJSON.
  destruct (num_le (Some 1) (ToNumber (prop CONFIG "MAX_RETRY"))) eqn:E.
  - destruct (ToNumber (prop CONFIG "MAX_RETRY")) as [m|] eqn:HM; [|done].
    simpl in E. apply Z.leb_le in E.
    destruct (attempts_returns_or_throws (prop CONFIG "TIMEOUT_MS") _ m w HM
                (ToLength (Some m)) 1 CONFIG E (postJSON_fuel m)) as (r & -> & _).
    by eexists.
  - rewrite attempts_exit by done. by eexists.
Qed.

(** C8, as amended: with an integer [MAX_RETRY], every call of [postJSON]
    terminates.  When [MAX_RETRY] is at least 1 it ends by returning the
    parsed body or by throwing, so that the end of the function body after
    the loop is not reached.  That end is not guarded: when [MAX_RETRY] is
    below 1 it is reached and the call completes without a value. *)
Theorem postJSON_returns_or_throws CONFIG w (m : Z) :
  ToNumber (prop CONFIG "MAX_RETRY") = Some m ->
  exists r,
    postJSON CONFIG w = Some r /\
    (1 <= m ->
     (exists v, outcome r = Return v) \/ (exists e, outcome r = Throw e)) /\
    (m < 1 -> outcome r = Undefined).
Proof.
  intros HM. unfold postJSON. rewrite HM.
  destruct (Z_lt_le_dec m 1) as [Hm|Hm].
  - rewrite attempts_exit by (rewrite HM; simpl; apply Z.leb_gt; lia).
    eexists. split; [reflexivity|]. split; [lia|done].
  - destruct (attempts_returns_or_throws (prop CONFIG "TIMEOUT_MS") _ m w HM
                (ToLength (Some m)) 1 CONFIG Hm (postJSON_fuel m)) as (r & -> & Hr).
    exists r. split; [reflexivity|]. split; [|lia].
    intros _. destruct (outcome r); [left|right|]; eauto. congruence.
Qed.

(** C10: when [MAX_RETRY] is a number below 1, [postJSON] issues no request,
    throws nothing and resolves with [undefined]. *)
Theorem postJSON_max_retry_below_one CONFIG w (m : Z) :
  ToNumber (prop CONFIG "MAX_RETRY") = Some m ->
  m < 1 ->
  postJSON CONFIG w = Some (Run CONFIG [] Undefined).
Proof.
  intros HM Hm. unfold postJSON. apply attempts_exit.
  rewrite HM. simpl. apply Z.leb_gt. lia.
Qed.

End RequestFacts.

Lemma postJSON_returns_or_throws_witness :
  exists r,
    postJSON CONFIG0 (always_500 "down") = Some r /\
    (1 <= 4 ->
     (exists v, outcome r = Return v) \/ (exists e, outcome r = Throw e)) /\
    (4 < 1 -> outcome r = Undefined).
Proof. apply (postJSON_returns_or_throws CONFIG0 (always_500 "down") 4). reflexivity. Defined.

(** C8, counterexample: no guard stands after the loop.  A guard can only
    show where the loop exits without returning, which takes a [MAX_RETRY]
    below 1; there, with [MAX_RETRY] set to 0, the call completes without a
    value instead of failing as a guarded fall-through would. *)
Lemma postJSON_falls_through_unguarded :
  outcome <$> postJSON (setConfig (Some {[ "MAX_RETRY" := JNum 0 ]}) CONFIG0)
                       (always_500 "down")
  = Some Undefined.
Proof. reflexivity. Qed.

Lemma postJSON_max_retry_below_one_witness :
  postJSON (setConfig (Some {[ "MAX_RETRY" := JNum (-3) ]}) CONFIG0) never_responds
  = Some (Run (setConfig (Some {[ "MAX_RETRY" := JNum (-3) ]}) CONFIG0) [] Undefined).
Proof.
  apply (postJSON_max_retry_below_one _ never_responds (-3)); [reflexivity|lia].
Defined.

(** ** Retry exhaustion *)

Section Exhaustion.

Context {J : Type}.
Implicit Types (w : world J) (r : run J) (CONFIG : obj).

Lemma fetches_retry_trace delay timeout n :
  forall a, fetches (retry_trace delay timeout a n) = n.
Proof.
  induction n as [|n IH]; intros a; [reflexivity|].
  destruct n as [|n]; [reflexivity|].
  change (S (fetches (retry_trace delay timeout (a + 1) (S n))) = S (S n)).
  by rewrite IH.
Qed.

Lemma retry_trace_SS delay timeout a n :
  retry_trace delay timeout a (S (S n)) =
  Fetch a timeout :: Sleep (delay a) :: retry_trace delay timeout (a + 1) (S n).
Proof. reflexivity. Qed.

(** Attempts [a], ..., [m] all answered with a retryable status. *)
Lemma attempts_http_exhaust TIMEOUT_MS MAX_RETRY (m : Z) w :
  ToNumber MAX_RETRY = Some m ->
  forall (n fuel : nat) (a : Z) CONFIG,
    m = a + Z.of_nat n -> (n < fuel)%nat ->
    (forall k, a <= k <= m ->
       exists res, fetch w k TIMEOUT_MS = Responded res /\
                   retryable_status (status res) = true) ->
    exists r res,
      attempts TIMEOUT_MS MAX_RETRY w fuel a CONFIG = Some r /\
      fetch w m TIMEOUT_MS = Responded res /\
      trace r = retry_trace http_backoff TIMEOUT_MS a (S n) /\
      outcome r =
        Throw (new_Error (http_message (status res) (default "" (text res)))).
Proof.
  intros HM. induction n as [|n IH]; intros fuel a CONFIG Hm Hfuel Hall.
  - assert (a = m) as -> by lia.
    destruct fuel as [|fuel]; [lia|].
    destruct (Hall m ltac:(lia)) as (res & Hres & Hst).
    rewrite attempts_step by (rewrite HM; simpl; apply Z.leb_le; lia).
    cbv zeta. rewrite HM, Hres, (retryable_not_ok res Hst). simpl num_lt.
    rewrite Z.ltb_irrefl, !andb_false_r.
    eexists _, res. repeat split; reflexivity || assumption.
  - destruct fuel as [|fuel]; [lia|].
    destruct (Hall a ltac:(lia)) as (res & Hres & Hst).
    destruct (IH fuel (a + 1) (mutate w a CONFIG))
      as (r & resm & Hr & Hresm & Htr & Hout); [lia|lia| |].
    { intros k Hk. apply Hall. lia. }
    rewrite attempts_step by (rewrite HM; simpl; apply Z.leb_le; lia).
    cbv zeta. rewrite HM, Hres, (retryable_not_ok res Hst), Hst. simpl num_lt.
    replace (a <? m) with true by (symmetry; apply Z.ltb_lt; lia).
    simpl andb. rewrite Hr.
    eexists _, resm. split; [reflexivity|]. split; [assumption|].
    split; [|exact Hout].
    rewrite retry_trace_SS. cbn [after trace app]. by rewrite Htr.
Qed.

(** Attempts [a], ..., [m] all ended by an exception that passes the
    retry test of the [catch] block. *)
Lemma attempts_transport_exhaust TIMEOUT_MS MAX_RETRY (m : Z) w (e : Z -> error) :
  ToNumber MAX_RETRY = Some m ->
  forall (n fuel : nat) (a : Z) CONFIG,
    m = a + Z.of_nat n -> (n < fuel)%nat ->
    (forall k, a <= k <= m ->
       fetch w k TIMEOUT_MS = Threw (e k) /\ retriable (e k) = true) ->
    exists r,
      attempts TIMEOUT_MS MAX_RETRY w fuel a CONFIG = Some r /\
      trace r = retry_trace transport_backoff TIMEOUT_MS a (S n) /\
      outcome r = Throw (e m).
Proof.
  intros HM. induction n as [|n IH]; intros fuel a CONFIG Hm Hfuel Hall.
  - assert (a = m) as -> by lia.
    destruct fuel as [|fuel]; [lia|].
    destruct (Hall m ltac:(lia)) as (Hres & Hre).
    rewrite attempts_step by (rewrite HM; simpl; apply Z.leb_le; lia).
    cbv zeta. rewrite HM, Hres. simpl num_lt.
    rewrite Z.ltb_irrefl, !andb_false_r.
    eexists. repeat split; reflexivity.
  - destruct fuel as [|fuel]; [lia|].
    destruct (Hall a ltac:(lia)) as (Hres & Hre).
    destruct (IH fuel (a + 1) (mutate w a CONFIG))
      as (r & Hr & Htr & Hout); [lia|lia| |].
    { intros k Hk. apply Hall. lia. }
    rewrite attempts_step by (rewrite HM; simpl; apply Z.leb_le; lia).
    cbv zeta. rewrite HM, Hres, Hre. simpl num_lt.
    replace (a <? m) with true by (symmetry; apply Z.ltb_lt; lia).
    simpl andb. rewrite Hr.
    eexists. split; [reflexivity|]. split; [|exact Hout].
    rewrite retry_trace_SS. cbn [after trace app]. by rewrite Htr.
Qed.

(** C3, as amended: when [MAX_RETRY] is an integer [m >= 1] and every
    attempt is answered with a retryable status (429 or 5xx), [postJSON]
    makes exactly [m] attempts, sleeps [min(2000, 200 * 2^(attempt-1))] ms
    between consecutive attempts (200, 400, 800 for [m = 4]) and then
    throws an [Error] whose message is [HTTP <status>: <body text>] of the
    last response, where an empty or unreadable body text is replaced by
    the fallback text of line 109. *)
Theorem postJSON_retryable_status_exhausts CONFIG w (m : Z) :
  ToNumber (prop CONFIG "MAX_RETRY") = Some m ->
  1 <= m ->
  (forall k, 1 <= k <= m ->
     exists res, fetch w k (prop CONFIG "TIMEOUT_MS") = Responded res /\
                 retryable_status (status res) = true) ->
  exists r res,
    postJSON CONFIG w = Some r /\
    fetch w m (prop CONFIG "TIMEOUT_MS") = Responded res /\
    fetches (trace r) = Z.to_nat m /\
    trace r = retry_trace http_backoff (prop CONFIG "TIMEOUT_MS") 1 (Z.to_nat m) /\
    (m = 4 -> sleeps (trace r) = [200; 400; 800]) /\
    outcome r =
      Throw (Err "Error"
               ("HTTP " +:+ pretty (status res) +:+ ": " +:+
                match text res with
                | Some (String c s) => String c s
                | Some EmptyString | None => "요청 실패"
                end)).
Proof.
  intros HM Hm Hall. unfold postJSON. rewrite HM.
  destruct (attempts_http_exhaust (prop CONFIG "TIMEOUT_MS") _ m w HM
              (Z.to_nat m - 1) (ToLength (Some m)) 1 CONFIG)
    as (r & res & Hr & Hres & Htr & Hout); [lia|simpl; lia|exact Hall|].
  replace (S (Z.to_nat m - 1)) with (Z.to_nat m) in Htr by lia.
  exists r, res. split; [exact Hr|]. split; [exact Hres|].
  split; [by rewrite Htr, fetches_retry_trace|].
  split; [exact Htr|].
  split; [intros ->; by rewrite Htr|].
  rewrite Hout. unfold new_Error, http_message.
  by destruct (text res) as [[|c s]|].
Qed.

(** C4: when [MAX_RETRY] is an integer [m >= 1] and every attempt fails at
    transport level (the timeout guard aborts it, or the exception reads
    as a connectivity failure), [postJSON] makes exactly [m] attempts,
    sleeps [300 * attempt] ms between consecutive attempts (300, 600, 900
    for [m = 4]) and then rethrows the exception of the last attempt
    unchanged. *)
Theorem postJSON_transport_failure_exhausts CONFIG w (m : Z) (e : Z -> error) :
  ToNumber (prop CONFIG "MAX_RETRY") = Some m ->
  1 <= m ->
  (forall k, 1 <= k <= m ->
     fetch w k (prop CONFIG "TIMEOUT_MS") = Threw (e k) /\
     retriable (e k) = true) ->
  exists r,
    postJSON CONFIG w = Some r /\
    fetches (trace r) = Z.to_nat m /\
    trace r = retry_trace transport_backoff (prop CONFIG "TIMEOUT_MS") 1 (Z.to_nat m) /\
    (m = 4 -> sleeps (trace r) = [300; 600; 900]) /\
    outcome r = Throw (e m).
Proof.
  intros HM Hm Hall. unfold postJSON. rewrite HM.
  destruct (attempts_transport_exhaust (prop CONFIG "TIMEOUT_MS") _ m w e HM
              (Z.to_nat m - 1) (ToLength (Some m)) 1 CONFIG)
    as (r & Hr & Htr & Hout); [lia|simpl; lia|exact Hall|].
  replace (S (Z.to_nat m - 1)) with (Z.to_nat m) in Htr by lia.
  exists r. split; [exact Hr|].
  split; [by rewrite Htr, fetches_retry_trace|].
  split; [exact Htr|].
  split; [intros ->; by rewrite Htr|exact Hout].
Qed.

(** The trace and the outcome of the loop do not depend on the store it
    carries nor on the [setConfig] calls made while it runs. *)
Lemma attempts_ignores_store TIMEOUT_MS MAX_RETRY
    (f : Z -> jsval -> fetched J) (d1 d2 : Z -> list (option obj)) :
  forall fuel a C1 C2,
    (fun r => (trace r, outcome r))
      <$> attempts TIMEOUT_MS MAX_RETRY (World f d1) fuel a C1 =
    (fun r => (trace r, outcome r))
      <$> attempts TIMEOUT_MS MAX_RETRY (World f d2) fuel a C2.
Proof.
  induction fuel as [|fuel IH]; intros a C1 C2.
  - cbn [attempts]. by destruct (negb _).
  - destruct (num_le (Some a) (ToNumber MAX_RETRY)) eqn:E.
    2:{ by rewrite !attempts_exit. }
    rewrite !attempts_step by done. cbv zeta. simpl fetch.
    assert (Hcont : forall ms,
      (fun r => (trace r, outcome r)) <$>
        (after [Fetch a TIMEOUT_MS; Sleep ms] <$>
           attempts TIMEOUT_MS MAX_RETRY (World f d1) fuel (a + 1)
             (mutate (World f d1) a C1)) =
      (fun r => (trace r, outcome r)) <$>
        (after [Fetch a TIMEOUT_MS; Sleep ms] <$>
           attempts TIMEOUT_MS MAX_RETRY (World f d2) fuel (a + 1)
             (mutate (World f d2) a C2))).
    { intros ms.
      specialize (IH (a + 1) (mutate (World f d1) a C1) (mutate (World f d2) a C2)).
      destruct (attempts _ _ (World f d1) _ _ _) as [r1|],
               (attempts _ _ (World f d2) _ _ _) as [r2|];
        simpl in *; congruence. }
    destruct (f a TIMEOUT_MS) as [res|e].
    + destruct (ok res); [reflexivity|].
      destruct (retryable_status (status res) && _); [apply Hcont|].
      destruct (retriable _ && _); [apply Hcont|reflexivity].
    + destruct (retriable _ && _); [apply Hcont|reflexivity].
Qed.

(** Shape of every run of the loop from attempt [a] on: [n] requests,
    numbered from [a], with the pause of each retried attempt after it and
    nothing else; every attempt but the last is one the loop retries; the
    loop ends as its last attempt ends, and falls through exactly when it
    issued no request. *)
Lemma attempts_shape T MAX_RETRY w :
  forall fuel a CONFIG r,
    attempts T MAX_RETRY w fuel a CONFIG = Some r ->
    exists n : nat,
      trace r = retry_trace (fun k => pause (fetch w k T) k) T a n /\
      (n <= fuel)%nat /\
      (n = O <-> num_le (Some a) (ToNumber MAX_RETRY) = false) /\
      (forall k, a <= k < a + Z.of_nat n - 1 -> final_outcome (fetch w k T) = None) /\
      match n with
      | O => outcome r = Undefined
      | S n' =>
          outcome r = ends_as (fetch w (a + Z.of_nat n') T) /\
          (num_lt (Some (a + Z.of_nat n')) (ToNumber MAX_RETRY) = true ->
           is_Some (final_outcome (fetch w (a + Z.of_nat n') T)))
      end.
Proof.
  induction fuel as [|fuel IH]; intros a CONFIG r Hr.
  { cbn [attempts] in Hr. destruct (num_le _ _) eqn:Hle; [done|].
    simpl in Hr. simplify_eq. exists O. simpl.
    split; [done|]. split; [lia|]. split; [done|]. split; [intros k ?; lia|done]. }
  destruct (num_le (Some a) (ToNumber MAX_RETRY)) eqn:Hle.
  2:{ rewrite attempts_exit in Hr by done. simplify_eq. exists O. simpl.
      split; [done|]. split; [lia|]. split; [done|]. split; [intros k ?; lia|done]. }
  rewrite attempts_step in Hr by done. cbv zeta in Hr.
  (* the attempt is retried *)
  assert (Hcont : forall ms C,
    after [Fetch a T; Sleep ms]
      <$> attempts T MAX_RETRY w fuel (a + 1) C = Some r ->
    num_lt (Some a) (ToNumber MAX_RETRY) = true ->
    ms = pause (fetch w a T) a ->
    final_outcome (fetch w a T) = None ->
    exists n : nat,
      trace r = retry_trace (fun k => pause (fetch w k T) k) T a n /\
      (n <= S fuel)%nat /\
      (n = O <-> true = false) /\
      (forall k, a <= k < a + Z.of_nat n - 1 -> final_outcome (fetch w k T) = None) /\
      match n with
      | O => outcome r = Undefined
      | S n' =>
          outcome r = ends_as (fetch w (a + Z.of_nat n') T) /\
          (num_lt (Some (a + Z.of_nat n')) (ToNumber MAX_RETRY) = true ->
           is_Some (final_outcome (fetch w (a + Z.of_nat n') T)))
      end).
  { intros ms C H Hmore -> Hretry.
    destruct (attempts T MAX_RETRY w fuel (a + 1) C) as [r'|] eqn:Hr';
      [|simpl in H; discriminate].
    simpl in H. simplify_eq.
    destruct (IH _ _ _ Hr') as (n' & Htr & Hn & H0 & Hbefore & Hend).
    assert (Hle' : num_le (Some (a + 1)) (ToNumber MAX_RETRY) = true).
    { destruct (ToNumber MAX_RETRY) as [m|]; [|done].
      simpl in *. apply Z.ltb_lt in Hmore. apply Z.leb_le. lia. }
    destruct n' as [|n'']; [destruct H0 as [H0 _]; rewrite H0 in Hle'; done|].
    exists (S (S n'')). rewrite retry_trace_SS. cbn [after trace outcome app].
    rewrite Htr. split; [done|]. split; [lia|]. split; [done|]. split.
    - intros k Hk. destruct (decide (k = a)) as [->|Hne]; [done|].
      apply Hbefore. lia.
    - replace (a + Z.of_nat (S n'')) with (a + 1 + Z.of_nat n'') by lia.
      exact Hend. }
  (* the attempt is the last one *)
  assert (Hfin : forall C,
    Some (Run C [Fetch a T] (ends_as (fetch w a T))) = Some r ->
    (num_lt (Some a) (ToNumber MAX_RETRY) = true -> is_Some (final_outcome (fetch w a T))) ->
    exists n : nat,
      trace r = retry_trace (fun k => pause (fetch w k T) k) T a n /\
      (n <= S fuel)%nat /\
      (n = O <-> true = false) /\
      (forall k, a <= k < a + Z.of_nat n - 1 -> final_outcome (fetch w k T) = None) /\
      match n with
      | O => outcome r = Undefined
      | S n' =>
          outcome r = ends_as (fetch w (a + Z.of_nat n') T) /\
          (num_lt (Some (a + Z.of_nat n')) (ToNumber MAX_RETRY) = true ->
           is_Some (final_outcome (fetch w (a + Z.of_nat n') T)))
      end).
  { intros C H Hlast. simplify_eq. exists 1%nat. simpl.
    rewrite Z.add_0_r. split; [done|]. split; [lia|]. split; [done|].
    split; [intros k ?; lia|]. split; [done|]. exact Hlast. }
  destruct (num_lt (Some a) (ToNumber MAX_RETRY)) eqn:Hmore;
    destruct (fetch w a T) as [res|e] eqn:Hf; rewrite ?Hf in Hr;
    rewrite ?andb_true_r, ?andb_false_r in Hr.
  - (* attempts remain, a response *)
    destruct (ok res) eqn:Hok.
    { eapply Hfin; rewrite ?Hf; simpl; rewrite Hok; [exact Hr|]. by eexists. }
    destruct (retryable_status (status res)) eqn:Hst.
    { eapply Hcont; [exact Hr|done|..]; rewrite ?Hf; simpl; by rewrite ?Hok, Hst. }
    destruct (retriable _) eqn:Hre.
    + eapply Hcont; [exact Hr|done|..]; rewrite ?Hf; simpl;
        by rewrite ?Hok, Hst, ?Hre.
    + eapply Hfin; rewrite ?Hf; simpl; rewrite Hok; [exact Hr|].
      rewrite Hst, Hre. by eexists.
  - (* attempts remain, an exception *)
    destruct (retriable e) eqn:Hre.
    + eapply Hcont; [exact Hr|done|..]; rewrite ?Hf; simpl; by rewrite ?Hre.
    + eapply Hfin; rewrite ?Hf; simpl; [exact Hr|]. rewrite Hre. by eexists.
  - (* last attempt, a response *)
    eapply Hfin; [|done]. rewrite ?Hf. simpl.
    destruct (ok res); simpl in Hr; exact Hr.
  - (* last attempt, an exception *)
    eapply Hfin; [|done]. rewrite ?Hf. simpl in *. exact Hr.
Qed.

(** Every request of such a trace is made under the same timeout. *)
Lemma retry_trace_timeout delay timeout a n k t :
  Fetch k t ∈ retry_trace delay timeout a n -> t = timeout.
Proof.
  revert a. induction n as [|n IH]; intros a H; [by apply elem_of_nil in H|].
  destruct n as [|n].
  - apply list_elem_of_singleton in H. by simplify_eq.
  - rewrite retry_trace_SS in H.
    apply elem_of_cons in H as [H|H]; [by simplify_eq|].
    apply elem_of_cons in H as [H|H]; [done|]. by eapply IH.
Qed.

End Exhaustion.

(** C3, counterexample: four answers with status 500 and an empty body.  The
    message thrown is not [HTTP 500: ] followed by the (empty) body text. *)
Lemma postJSON_empty_body_message :
  outcome <$> postJSON CONFIG0 (always_500 "")
    = Some (Throw (Err "Error" "HTTP 500: 요청 실패")) /\
  Err "Error" "HTTP 500: 요청 실패" <> Err "Error" ("HTTP 500: " +:+ "").
Proof. split; [reflexivity|discriminate]. Qed.

Lemma postJSON_retryable_status_exhausts_witness :
  exists r res,
    postJSON CONFIG0 (always_500 "down") = Some r /\
    fetch (always_500 "down") 4 (prop CONFIG0 "TIMEOUT_MS") = Responded res /\
    fetches (trace r) = 4%nat /\
    trace r = retry_trace http_backoff (prop CONFIG0 "TIMEOUT_MS") 1 4 /\
    (4 = 4 -> sleeps (trace r) = [200; 400; 800]) /\
    outcome r =
      Throw (Err "Error"
               ("HTTP " +:+ pretty (status res) +:+ ": " +:+
                match text res with
                | Some (String c s) => String c s
                | Some EmptyString | None => "요청 실패"
                end)).
Proof.
  apply (postJSON_retryable_status_exhausts CONFIG0 (always_500 "down") 4).
  - reflexivity.
  - lia.
  - intros k _. eexists. split; reflexivity.
Defined.

Lemma postJSON_transport_failure_exhausts_witness :
  exists r,
    postJSON CONFIG0 never_responds = Some r /\
    fetches (trace r) = 4%nat /\
    trace r = retry_trace transport_backoff (prop CONFIG0 "TIMEOUT_MS") 1 4 /\
    (4 = 4 -> sleeps (trace r) = [300; 600; 900]) /\
    outcome r = Throw (Err "AbortError" "The user aborted a request.").
Proof.
  apply (postJSON_transport_failure_exhausts CONFIG0 never_responds 4
           (fun _ => Err "AbortError" "The user aborted a request.")).
  - reflexivity.
  - lia.
  - intros k _. split; reflexivity.
Defined.

(** ** The worker pool: progress *)

Section PoolProgress.

Context {V : Type}.
Variable tasks : list (settled V).
Implicit Types (p : pool V) (k : worker V) (ws : list (worker V)).

Local Open Scope nat_scope.

Lemma load_insert ws w k k' :
  ws !! w = Some k -> load (<[w := k']> ws) + weight k = load ws + weight k'.
Proof.
  revert w. induction ws as [|x ws IH]; intros [|w] H; try done.
  - simpl in *. injection H as ->. lia.
  - simpl in *. specialize (IH w H). lia.
Qed.

Lemma load_le ws : load ws <= 2 * length ws.
Proof.
  induction ws as [|x ws IH]; simpl; [lia|].
  destruct x; simpl; lia.
Qed.

Lemma workers_settle p : workers (settle p) = workers p.
Proof. unfold settle. destruct (joined p); try done. by destruct (forallb _ _). Qed.

Lemma i_settle p : i (settle p) = i p.
Proof. unfold settle. destruct (joined p); try done. by destruct (forallb _ _). Qed.

Lemma results_settle p : results (settle p) = results p.
Proof. unfold settle. destruct (joined p); try done. by destruct (forallb _ _). Qed.

Lemma CONFIG_settle p : CONFIG (settle p) = CONFIG p.
Proof. unfold settle. destruct (joined p); try done. by destruct (forallb _ _). Qed.

Lemma measure_settle p : measure tasks (settle p) = measure tasks p.
Proof. unfold measure. by rewrite workers_settle, i_settle. Qed.

Lemma loop_head_weight cur :
  3 * (length tasks - S cur) + weight (loop_head tasks cur) + 1
    <= 3 * (length tasks - cur) + 1.
Proof.
  unfold loop_head. destruct (tasks !! cur) as [t|] eqn:E; simpl; [|lia].
  apply lookup_lt_Some in E. lia.
Qed.

Lemma measure_claim p w k :
  workers p !! w = Some k ->
  measure tasks (claim tasks w p) + weight k <= measure tasks p.
Proof.
  intros Hw. unfold measure, claim. simpl.
  pose proof (load_insert _ _ _ (loop_head tasks (i p)) Hw).
  pose proof (loop_head_weight (i p)). lia.
Qed.

(** Resuming a suspended worker uses up some of the measure. *)
Lemma measure_resume p w k :
  workers p !! w = Some k -> suspended k ->
  measure tasks (resume tasks w p) < measure tasks p.
Proof.
  intros Hw Hk. unfold resume. rewrite Hw.
  destruct k as [cur [v|e]|ms| |e]; try done.
  - cbv zeta. destruct (num_gt _ _).
    + unfold measure, sleep, write. simpl.
      pose proof (load_insert _ _ _ (Sleeping (prop (CONFIG p) "THROTTLE_MS") : worker V) Hw).
      simpl in *. lia.
    + rewrite measure_settle.
      pose proof (measure_claim (write cur v p) w _ Hw) as H.
      unfold measure in *. simpl in *. lia.
  - unfold measure, reject. simpl.
    pose proof (load_insert _ _ _ (Failed e : worker V) Hw). simpl in *. lia.
  - rewrite measure_settle.
    pose proof (measure_claim p w _ Hw) as H. simpl in H. lia.
Qed.

Lemma resume_not_suspended p w :
  (forall k, workers p !! w = Some k -> ~ suspended k) -> resume tasks w p = p.
Proof.
  intros H. unfold resume.
  destruct (workers p !! w) as [[cur [v|e]|ms| |e]|] eqn:E; try done;
    by destruct (H _ eq_refl).
Qed.

Lemma measure_exec p s : measure tasks (exec tasks s p) <= measure tasks p.
Proof.
  destruct s as [w|c]; [|done]. simpl.
  destruct (workers p !! w) as [k|] eqn:E.
  - destruct (decide (suspended k)) as [Hk|Hk].
    + pose proof (measure_resume p w k E Hk). lia.
    + rewrite resume_not_suspended; [done|]. intros k' ?. by simplify_eq.
  - rewrite resume_not_suspended; [done|]. intros k' ?. by simplify_eq.
Qed.

Lemma measure_execs ss p : measure tasks (execs tasks ss p) <= measure tasks p.
Proof.
  revert p. induction ss as [|s ss IH]; intros p; simpl; [done|].
  etrans; [apply IH|apply measure_exec].
Qed.

(** With fuel for its measure, [drain] leaves no worker suspended. *)
Lemma drain_quiescent fuel :
  forall p, measure tasks p <= fuel -> quiescent (drain tasks fuel p).
Proof.
  induction fuel as [|fuel IH]; intros p Hp; simpl.
  - intros w k Hw Hk.
    unfold measure in Hp.
    pose proof (load_insert _ _ _ (Finished : worker V) Hw) as H.
    destruct k; simpl in *; try done; lia.
  - destruct (list_find suspended (workers p)) as [[w k]|] eqn:E.
    + apply list_find_Some in E as (Hw & Hk & _).
      apply IH. pose proof (measure_resume p w k Hw Hk). lia.
    + intros w k Hw Hk.
      eapply list_find_None, Forall_lookup in E; [|exact Hw]. done.
Qed.

Lemma length_workers_resume p w :
  length (workers (resume tasks w p)) = length (workers p).
Proof.
  unfold resume.
  destruct (workers p !! w) as [[cur [v|e]|ms| |e]|]; try done; cbv zeta;
    try destruct (num_gt _ _);
    rewrite ?workers_settle; simpl; by rewrite ?length_insert.
Qed.

Lemma length_workers_execs ss p :
  length (workers (execs tasks ss p)) = length (workers p).
Proof.
  revert p. induction ss as [|[w|c] ss IH]; intros p; simpl; [done| |].
  - rewrite IH. apply length_workers_resume.
  - by rewrite IH.
Qed.

Lemma length_workers_drain fuel p :
  length (workers (drain tasks fuel p)) = length (workers p).
Proof.
  revert p. induction fuel as [|fuel IH]; intros p; simpl; [done|].
  destruct (list_find _ _) as [[w k]|]; [|done].
  rewrite IH. apply length_workers_resume.
Qed.

(** The pool after [n] workers have been created. *)
Lemma iter_spawn CONFIG n :
  Nat.iter n (spawn tasks)
    (Pool CONFIG 0 (replicate (length tasks) None) [] Pending)
  = Pool CONFIG n (replicate (length tasks) None)
         (loop_head tasks <$> seq 0 n) Pending.
Proof.
  induction n as [|n IH]; [done|].
  rewrite seq_S, fmap_app. simpl Nat.iter. by rewrite IH.
Qed.

Lemma workers_start CONFIG n :
  workers (start tasks CONFIG n) = loop_head tasks <$> seq 0 n.
Proof. unfold start. by rewrite workers_settle, iter_spawn. Qed.

Lemma measure_start CONFIG n : measure tasks (start tasks CONFIG n) <= 3 * length tasks + 2 * n.
Proof.
  unfold measure. rewrite workers_start.
  pose proof (load_le (loop_head tasks <$> seq 0 n)) as H.
  rewrite length_fmap, length_seq in H. lia.
Qed.

End PoolProgress.

(** ** The worker pool: what holds at every moment of a call *)

Section PoolSafety.

Context {V : Type}.
Variable tasks : list (settled V).
Implicit Types (p : pool V) (k : worker V) (ws : list (worker V)).

Local Open Scope nat_scope.

Lemma all_finished_lookup ws w k :
  forallb is_finished ws = true -> ws !! w = Some k -> k = Finished.
Proof.
  intros H Hw. apply Is_true_eq_left, forallb_True in H.
  eapply Forall_lookup in H; [|exact Hw]. by destruct k.
Qed.

Lemma not_all_finished ws w k :
  ws !! w = Some k -> k <> Finished -> forallb is_finished ws = false.
Proof.
  intros Hw Hk. destruct (forallb is_finished ws) eqn:E; [|done].
  by destruct Hk; eapply all_finished_lookup.
Qed.

Lemma released_not_returned p w rs :
  core tasks p -> released p w -> joined p <> Returned rs.
Proof.
  intros Hc (k & Hw & Hk) Hj. apply Hc in Hj as [_ Hall].
  rewrite (all_finished_lookup _ _ _ Hall Hw) in Hk. done.
Qed.

Lemma write_keeps p cur v j v' :
  core tasks p -> tasks !! cur = Some (Fulfilled v) ->
  results p !! j = Some (Some v') ->
  <[cur := Some v]> (results p) !! j = Some (Some v').
Proof.
  intros Hc Hcur Hj. destruct (decide (cur = j)) as [->|Hne].
  - apply Hc in Hj. simplify_eq.
    apply list_lookup_insert_eq. rewrite (core_len _ _ Hc).
    by eapply lookup_lt_Some.
  - by rewrite list_lookup_insert_ne.
Qed.

Lemma core_write p w cur v :
  core tasks p -> workers p !! w = Some (Awaiting cur (Fulfilled v)) ->
  core tasks (write cur v p).
Proof.
  intros Hc Hw. destruct (core_awaiting _ _ Hc _ _ _ Hw) as [Hcur Hlt].
  constructor; simpl.
  - rewrite length_insert. apply Hc.
  - intros j v' Hj. destruct (decide (cur = j)) as [->|Hne].
    + rewrite list_lookup_insert_eq in Hj; [by simplify_eq|].
      rewrite (core_len _ _ Hc). by eapply lookup_lt_Some.
    + rewrite list_lookup_insert_ne in Hj by done. by apply Hc.
  - apply Hc.
  - intros j t Hj Ht.
    destruct (core_claimed _ _ Hc j t Hj Ht) as [(v' & -> & Hr)|H]; [|by right].
    left. exists v'. split; [done|]. by eapply write_keeps.
  - apply Hc.
  - apply Hc.
  - intros rs Hrs. apply Hc in Hrs as [_ Hall].
    by pose proof (all_finished_lookup _ _ _ Hall Hw).
  - apply Hc.
Qed.

Lemma released_write p w cur v :
  core tasks p -> workers p !! w = Some (Awaiting cur (Fulfilled v)) ->
  released (write cur v p) w.
Proof.
  intros Hc Hw. destruct (core_awaiting _ _ Hc _ _ _ Hw) as [Hcur Hlt].
  eexists. split; [exact Hw|]. exists v. split; [done|]. simpl.
  apply list_lookup_insert_eq. rewrite (core_len _ _ Hc).
  by eapply lookup_lt_Some.
Qed.

(** What replacing the state of a released worker does to the accounting
    of the indices claimed so far. *)
Lemma claimed_replace p w k' j t :
  core tasks p -> released p w ->
  j < i p -> tasks !! j = Some t ->
  (exists v, t = Fulfilled v /\ results p !! j = Some (Some v)) \/
  (exists w', <[w := k']> (workers p) !! w' = Some (Awaiting j t)) \/
  (exists w' e, t = Rejected e /\ <[w := k']> (workers p) !! w' = Some (Failed e)).
Proof.
  intros Hc (k & Hw & Hk) Hj Ht.
  destruct (core_claimed _ _ Hc j t Hj Ht) as [H|[(w' & Hw')|(w' & e & -> & Hw')]].
  - by left.
  - destruct (decide (w = w')) as [->|Hne].
    + rewrite Hw in Hw'. simplify_eq. by left.
    + right; left. exists w'. by rewrite list_lookup_insert_ne.
  - destruct (decide (w = w')) as [->|Hne].
    + rewrite Hw in Hw'. by simplify_eq.
    + right; right. exists w', e. by rewrite list_lookup_insert_ne.
Qed.

Lemma core_sleep p w :
  core tasks p -> released p w -> core tasks (sleep w p).
Proof.
  intros Hc Hrel. pose proof Hrel as (k & Hw & Hk).
  assert (Hlen : w < length (workers p)) by by eapply lookup_lt_Some.
  constructor; simpl.
  - apply Hc.
  - apply Hc.
  - intros w' cur s Hw'. destruct (decide (w = w')) as [->|Hne].
    + by rewrite list_lookup_insert_eq in Hw'.
    + rewrite list_lookup_insert_ne in Hw' by done. by eapply Hc.
  - intros j t Hj Ht. eapply claimed_replace; eauto.
  - intros w' Hw'. destruct (decide (w = w')) as [->|Hne].
    + by rewrite list_lookup_insert_eq in Hw'.
    + rewrite list_lookup_insert_ne in Hw' by done. by eapply Hc.
  - intros w' e Hw'. destruct (decide (w = w')) as [->|Hne].
    + by rewrite list_lookup_insert_eq in Hw'.
    + rewrite list_lookup_insert_ne in Hw' by done. by eapply Hc.
  - intros rs Hrs. by destruct (released_not_returned _ _ rs Hc Hrel).
  - apply Hc.
Qed.

Lemma loop_head_awaiting n cur s :
  loop_head tasks n = Awaiting cur s -> cur = n /\ tasks !! n = Some s.
Proof. unfold loop_head. destruct (tasks !! n); intros; by simplify_eq. Qed.

Lemma loop_head_finished n :
  loop_head tasks n = Finished -> length tasks <= n.
Proof.
  unfold loop_head. destruct (tasks !! n) eqn:E; [done|].
  intros _. by apply lookup_ge_None.
Qed.

Lemma loop_head_not_failed n e : loop_head tasks n <> Failed e.
Proof. unfold loop_head. by destruct (tasks !! n). Qed.

Lemma core_claim p w :
  core tasks p -> released p w -> core tasks (claim tasks w p).
Proof.
  intros Hc Hrel. pose proof Hrel as (k & Hw & Hk).
  assert (Hlen : w < length (workers p)) by by eapply lookup_lt_Some.
  constructor; simpl.
  - apply Hc.
  - apply Hc.
  - intros w' cur s Hw'. destruct (decide (w = w')) as [->|Hne].
    + rewrite list_lookup_insert_eq in Hw' by done. simplify_eq.
      apply loop_head_awaiting in Hw' as [-> ?]. split; [done|lia].
    + rewrite list_lookup_insert_ne in Hw' by done.
      destruct (core_awaiting _ _ Hc _ _ _ Hw'). split; [done|lia].
  - intros j t Hj Ht. destruct (decide (j = i p)) as [->|Hne].
    + right; left. exists w. rewrite list_lookup_insert_eq by done.
      unfold loop_head. by rewrite Ht.
    + eapply claimed_replace; eauto. lia.
  - intros w' Hw'. destruct (decide (w = w')) as [->|Hne].
    + rewrite list_lookup_insert_eq in Hw' by done. simplify_eq.
      apply loop_head_finished in Hw'. lia.
    + rewrite list_lookup_insert_ne in Hw' by done.
      pose proof (core_finished _ _ Hc _ Hw'). lia.
  - intros w' e Hw'. destruct (decide (w = w')) as [->|Hne].
    + rewrite list_lookup_insert_eq in Hw' by done. simplify_eq.
      by destruct (loop_head_not_failed (i p) e).
    + rewrite list_lookup_insert_ne in Hw' by done. by eapply Hc.
  - intros rs Hrs. by destruct (released_not_returned _ _ rs Hc Hrel).
  - apply Hc.
Qed.

Lemma inv_settle p : core tasks p -> inv tasks (settle p).
Proof.
  intros Hc. unfold settle.
  destruct (joined p) eqn:Hj.
  - destruct (forallb is_finished (workers p)) eqn:Hall.
    + split; [|done]. constructor; simpl; try apply Hc.
      * intros w e Hw. by pose proof (all_finished_lookup _ _ _ Hall Hw).
      * intros rs ?. by simplify_eq.
      * done.
    + by split.
  - split; [done|]. by rewrite Hj.
  - split; [done|]. by rewrite Hj.
Qed.

Lemma inv_reject p w cur e :
  core tasks p -> workers p !! w = Some (Awaiting cur (Rejected e)) ->
  inv tasks (reject w e p).
Proof.
  intros Hc Hw. destruct (core_awaiting _ _ Hc _ _ _ Hw) as [Hcur Hlt].
  assert (Hlen : w < length (workers p)) by by eapply lookup_lt_Some.
  assert (Hin : Rejected e ∈ tasks) by by eapply list_elem_of_lookup_2.
  assert (Hnr : forall rs, joined p <> Returned rs).
  { intros rs Hrs. apply Hc in Hrs as [_ Hall].
    by pose proof (all_finished_lookup _ _ _ Hall Hw). }
  split; [|simpl; by destruct (joined p)].
  constructor; simpl.
  - apply Hc.
  - apply Hc.
  - intros w' cur' s Hw'. destruct (decide (w = w')) as [->|Hne].
    + by rewrite list_lookup_insert_eq in Hw'.
    + rewrite list_lookup_insert_ne in Hw' by done. by eapply Hc.
  - intros j t Hj Ht.
    destruct (core_claimed _ _ Hc j t Hj Ht) as [H|[(w' & Hw')|(w' & e' & -> & Hw')]].
    + by left.
    + destruct (decide (w = w')) as [->|Hne].
      * rewrite Hw in Hw'. simplify_eq. right; right. exists w', e.
        by rewrite list_lookup_insert_eq.
      * right; left. exists w'. by rewrite list_lookup_insert_ne.
    + destruct (decide (w = w')) as [->|Hne].
      * rewrite Hw in Hw'. by simplify_eq.
      * right; right. exists w', e'. by rewrite list_lookup_insert_ne.
  - intros w' Hw'. destruct (decide (w = w')) as [->|Hne].
    + by rewrite list_lookup_insert_eq in Hw'.
    + rewrite list_lookup_insert_ne in Hw' by done. by eapply Hc.
  - intros w' e' Hw'. destruct (decide (w = w')) as [->|Hne].
    + rewrite list_lookup_insert_eq in Hw' by done. simplify_eq.
      split; [done|]. destruct (joined p) as [|rs|e0] eqn:Hj; eauto.
      by destruct (Hnr rs).
    + rewrite list_lookup_insert_ne in Hw' by done.
      destruct (core_failed _ _ Hc _ _ Hw') as [? [e'' ->]]. eauto.
  - intros rs Hrs. destruct (joined p) eqn:Hj; try done.
    by destruct (Hnr rs).
  - intros e' He'. destruct (joined p) eqn:Hj; simplify_eq; [done|].
    by apply Hc.
Qed.

Lemma inv_resume p w : inv tasks p -> inv tasks (resume tasks w p).
Proof.
  intros [Hc Hp]. unfold resume.
  destruct (workers p !! w) as [[cur [v|e]|ms| |e]|] eqn:Hw; try done.
  - cbv zeta.
    pose proof (core_write _ _ _ _ Hc Hw) as Hc'.
    pose proof (released_write _ _ _ _ Hc Hw) as Hrel.
    destruct (num_gt _ _).
    + split; [by apply core_sleep|].
      intros _. simpl.
      eapply not_all_finished;
        [apply list_lookup_insert_eq; by eapply lookup_lt_Some|done].
    + by apply inv_settle, core_claim.
  - by eapply inv_reject.
  - apply inv_settle, core_claim; [done|]. by eexists.
Qed.

Lemma inv_exec p s : inv tasks p -> inv tasks (exec tasks s p).
Proof.
  destruct s as [w|c]; [apply inv_resume|].
  intros [Hc Hp]. split; [|done]. destruct Hc. by constructor.
Qed.

Lemma inv_execs ss p : inv tasks p -> inv tasks (execs tasks ss p).
Proof.
  revert p. induction ss as [|s ss IH]; intros p Hp; [done|].
  simpl. by apply IH, inv_exec.
Qed.

Lemma inv_drain fuel p : inv tasks p -> inv tasks (drain tasks fuel p).
Proof.
  revert p. induction fuel as [|fuel IH]; intros p Hp; [done|].
  simpl. destruct (list_find _ _) as [[w k]|]; [|done].
  by apply IH, inv_resume.
Qed.

Lemma lookup_spawned n w k :
  (loop_head tasks <$> seq 0 n) !! w = Some k -> k = loop_head tasks w /\ w < n.
Proof.
  rewrite list_lookup_fmap. intros H.
  destruct (seq 0 n !! w) as [x|] eqn:E; [|done].
  apply lookup_seq in E as [-> ?]. simpl in H. by simplify_eq.
Qed.

Lemma inv_start CONFIG n : inv tasks (start tasks CONFIG n).
Proof.
  unfold start. rewrite iter_spawn. apply inv_settle.
  constructor; simpl; try done.
  - apply length_replicate.
  - intros j v Hj. by apply lookup_replicate in Hj as [? _].
  - intros w cur s Hw. apply lookup_spawned in Hw as [Hw ?].
    symmetry in Hw. apply loop_head_awaiting in Hw as [-> ?]. done.
  - intros j t Hj Ht. right; left. exists j.
    rewrite list_lookup_fmap, lookup_seq_lt by done. simpl.
    unfold loop_head. by rewrite Ht.
  - intros w Hw. apply lookup_spawned in Hw as [Hw ?].
    symmetry in Hw. apply loop_head_finished in Hw. lia.
  - intros w e Hw. apply lookup_spawned in Hw as [Hw ?].
    symmetry in Hw. by destruct (loop_head_not_failed w e).
Qed.

End PoolSafety.

(** ** The worker pool: schedules and the store *)

Section PoolStore.

Context {V : Type}.
Variable tasks : list (settled V).
Implicit Types (p q : pool V).

Lemma lookup_setConfig_opt (c : option obj) (C : obj) (k : string) :
  setConfig c C !! k =
  match default ∅ c !! k with Some v => Some v | None => C !! k end.
Proof.
  destruct c as [c|]; [apply lookup_setConfig|].
  rewrite setConfig_None. simpl. by rewrite lookup_empty.
Qed.


End PoolStore.

(** ** The worker pool: results, failures, size *)

Section PoolResults.

Context {V : Type}.
Implicit Types (p : pool V) (tasks : list (settled V)).

Local Open Scope nat_scope.

Lemma size_of_integer CONFIG limit len (requested : Z) :
  ToNumber (nullish limit (prop CONFIG "CONCURRENCY")) = Some requested ->
  size_of CONFIG limit len = Some (Z.min (Z.max 1 requested) (Z.of_nat len)).
Proof. intros H. unfold size_of. by rewrite H. Qed.

Lemma length_workers_moment CONFIG tasks limit ss :
  length (workers (moment CONFIG tasks limit ss))
  = ToLength (size_of CONFIG limit (length tasks)).
Proof.
  unfold moment. rewrite length_workers_execs, workers_start.
  by rewrite length_fmap, length_seq.
Qed.

Lemma run_nonempty CONFIG tasks limit ss :
  tasks <> [] ->
  runWithConcurrency CONFIG (Arr tasks) limit ss =
  drain tasks
    (drain_fuel (length tasks) (ToLength (size_of CONFIG limit (length tasks))))
    (moment CONFIG tasks limit ss).
Proof. by destruct tasks. Qed.

Lemma length_workers_run CONFIG tasks limit ss :
  tasks <> [] ->
  length (workers (runWithConcurrency CONFIG (Arr tasks) limit ss))
  = ToLength (size_of CONFIG limit (length tasks)).
Proof.
  intros H. rewrite run_nonempty by done.
  by rewrite length_workers_drain, length_workers_moment.
Qed.

Lemma inv_moment CONFIG tasks limit ss : inv tasks (moment CONFIG tasks limit ss).
Proof. apply inv_execs, inv_start. Qed.

Lemma run_inv CONFIG tasks limit ss :
  tasks <> [] ->
  inv tasks (runWithConcurrency CONFIG (Arr tasks) limit ss) /\
  quiescent (runWithConcurrency CONFIG (Arr tasks) limit ss).
Proof.
  intros H. rewrite run_nonempty by done. split.
  - apply inv_drain, inv_moment.
  - apply drain_quiescent. unfold moment, drain_fuel.
    etrans; [apply measure_execs|apply measure_start].
Qed.

(** A pool with at least one worker, all of them returned, has filled
    every slot with the value of its task. *)
Lemma all_finished_results tasks p :
  inv tasks p -> 0 < length (workers p) ->
  forallb is_finished (workers p) = true ->
  forall j t, tasks !! j = Some t ->
    exists v, t = Fulfilled v /\ results p !! j = Some (Some v).
Proof.
  intros [Hc _] Hlen Hall j t Ht.
  destruct (lookup_lt_is_Some_2 (workers p) 0 Hlen) as [k Hk].
  pose proof (all_finished_lookup _ _ _ Hall Hk) as ->.
  pose proof (core_finished _ _ Hc _ Hk) as Hi.
  apply lookup_lt_Some in Ht as Hj.
  destruct (core_claimed _ _ Hc j t ltac:(lia) Ht)
    as [H|[(w & Hw)|(w & e & _ & Hw)]]; [done| |];
    by pose proof (all_finished_lookup _ _ _ Hall Hw).
Qed.

Lemma quiescent_no_failure tasks p :
  inv tasks p -> quiescent p -> Forall fulfils tasks ->
  forallb is_finished (workers p) = true.
Proof.
  intros [Hc _] Hq Hall. apply Is_true_eq_true, forallb_True, Forall_lookup.
  intros w k Hw. pose proof (Hq w k Hw) as Hk.
  destruct k as [| | |e]; simpl in *; try done.
  apply Hc in Hw as [Hin _].
  eapply Forall_forall in Hall; [|exact Hin]. done.
Qed.









End PoolResults.

(** ** The worker pool: workers lost to failures *)

Section PoolFailures.

Context {V : Type}.
Variable tasks : list (settled V).
Implicit Types (p : pool V) (k : worker V) (ws : list (worker V)).

Local Open Scope nat_scope.



















End PoolFailures.

(** ** The worker pool on tasks that read the store *)

Section PoolThunks.

Context {V : Type}.
Implicit Types (p q : pool V) (thunks : list (thunk V)) (tasks : list (settled V)).

(** On tasks that do not read the store, this is the pool described
    before. *)
Lemma loop_head_live_settling tasks C cur :
  loop_head_live (settling <$> tasks) C cur = loop_head tasks cur.
Proof.
  unfold loop_head_live, loop_head. rewrite list_lookup_fmap.
  by destruct (tasks !! cur).
Qed.

Lemma resume_live_settling tasks w p :
  resume_live (settling <$> tasks) w p = resume tasks w p.
Proof.
  unfold resume_live, resume, claim_live, claim.
  destruct (workers p !! w) as [[cur [v|e]|ms| |e]|]; try done; cbv zeta;
    by rewrite loop_head_live_settling.
Qed.

Lemma execs_live_settling tasks ss p :
  execs_live (settling <$> tasks) ss p = execs tasks ss p.
Proof.
  revert p. induction ss as [|[w|c] ss IH]; intros p; simpl; [done| |].
  - by rewrite resume_live_settling, IH.
  - by rewrite IH.
Qed.

Lemma drain_live_settling tasks fuel p :
  drain_live (settling <$> tasks) fuel p = drain tasks fuel p.
Proof.
  revert p. induction fuel as [|fuel IH]; intros p; simpl; [done|].
  destruct (list_find _ _) as [[w k]|]; [|done].
  by rewrite resume_live_settling, IH.
Qed.

Lemma moment_live_settling tasks C limit ss :
  moment_live (settling <$> tasks) C limit ss = moment C tasks limit ss.
Proof.
  unfold moment_live, moment. rewrite execs_live_settling, length_fmap.
  f_equal. unfold start_live, start. rewrite length_fmap. f_equal.
  generalize (ToLength (size_of C limit (length tasks))).
  intros n. induction n as [|n IH]; [done|]. simpl. rewrite IH.
  unfold spawn_live, spawn. by rewrite loop_head_live_settling.
Qed.

Lemma execs_live_app thunks ss1 ss2 p :
  execs_live thunks (ss1 ++ ss2) p = execs_live thunks ss2 (execs_live thunks ss1 p).
Proof. unfold execs_live. by rewrite foldl_app. Qed.

(** The number of workers never changes. *)
Lemma length_workers_resume_live thunks p w :
  length (workers (resume_live thunks w p)) = length (workers p).
Proof.
  unfold resume_live.
  destruct (workers p !! w) as [[cur [v|e]|ms| |e]|]; try done; cbv zeta;
    try destruct (num_gt _ _);
    rewrite ?workers_settle; simpl; by rewrite ?length_insert.
Qed.

Lemma length_workers_execs_live thunks ss p :
  length (workers (execs_live thunks ss p)) = length (workers p).
Proof.
  revert p. induction ss as [|[w|c] ss IH]; intros p; simpl; [done| |].
  - rewrite IH. apply length_workers_resume_live.
  - by rewrite IH.
Qed.

Lemma length_workers_start_live thunks C n :
  length (workers (start_live thunks C n)) = n.
Proof.
  unfold start_live. rewrite workers_settle.
  induction n as [|n IH]; [done|]. simpl. rewrite length_app, IH. simpl. lia.
Qed.

Lemma length_workers_moment_live thunks C limit ss :
  length (workers (moment_live thunks C limit ss))
  = ToLength (size_of C limit (length thunks)).
Proof.
  unfold moment_live. by rewrite length_workers_execs_live, length_workers_start_live.
Qed.

(** Stores that differ at most at the keys of [c] stay so under the same
    [setConfig], and hold the same value at any other key. *)
Lemma outside_setConfig c c' C1 C2 :
  outside c C1 C2 -> outside c (setConfig c' C1) (setConfig c' C2).
Proof.
  intros H k Hk. rewrite !lookup_setConfig_opt. by rewrite (H k Hk).
Qed.

Lemma outside_mutated c C : outside c (setConfig c C) C.
Proof. intros k Hk. by rewrite lookup_setConfig_opt, Hk. Qed.

Lemma outside_prop c C1 C2 k :
  outside c C1 C2 -> default ∅ c !! k = None -> prop C1 k = prop C2 k.
Proof. intros H Hk. unfold prop. by rewrite (H k Hk). Qed.

(** What resuming a worker leaves in its place. *)
Lemma resume_live_fulfilled thunks p w cur v :
  workers p !! w = Some (Awaiting cur (Fulfilled v)) ->
  workers (resume_live thunks w p) !! w =
  Some (if num_gt (ToNumber (prop (CONFIG p) "THROTTLE_MS")) (Some 0)
        then Sleeping (prop (CONFIG p) "THROTTLE_MS")
        else loop_head_live thunks (CONFIG p) (i p)).
Proof.
  intros Hw. apply lookup_lt_Some in Hw as Hlt.
  unfold resume_live. rewrite Hw. cbv zeta. simpl CONFIG.
  destruct (num_gt _ _).
  - simpl. by apply list_lookup_insert_eq.
  - rewrite workers_settle. simpl. by apply list_lookup_insert_eq.
Qed.

Lemma resume_live_sleeping thunks p w ms :
  workers p !! w = Some (Sleeping ms) ->
  workers (resume_live thunks w p) !! w =
  Some (loop_head_live thunks (CONFIG p) (i p)).
Proof.
  intros Hw. apply lookup_lt_Some in Hw as Hlt.
  unfold resume_live. rewrite Hw, workers_settle. simpl.
  by apply list_lookup_insert_eq.
Qed.

(** Resuming a worker leaves the others as they are. *)
Lemma resume_live_other thunks p w k :
  w <> k -> workers (resume_live thunks w p) !! k = workers p !! k.
Proof.
  intros Hne. unfold resume_live.
  destruct (workers p !! w) as [[cur [v|e]|ms| |e]|]; try done; cbv zeta;
    try destruct (num_gt _ _); rewrite ?workers_settle; simpl;
    by rewrite list_lookup_insert_ne.
Qed.

(** A worker keeps waiting on its promise until it is resumed, whatever
    the other workers do and whatever is done to the store. *)
Lemma awaiting_execs_live thunks ss p k cur s :
  workers p !! k = Some (Awaiting cur s) ->
  Resume k ∉ ss ->
  workers (execs_live thunks ss p) !! k = Some (Awaiting cur s).
Proof.
  revert p. induction ss as [|[w|c] ss IH]; intros p Hk Hss; simpl; [done| |].
  - apply not_elem_of_cons in Hss as [Hne Hss].
    apply IH; [|done]. rewrite resume_live_other; [done|]. by intros ->.
  - apply not_elem_of_cons in Hss as [_ Hss]. by apply IH.
Qed.

(** What the settlement of its promise makes a worker do, whatever the
    store holds by then. *)
Lemma resume_live_settles thunks p k cur s :
  workers p !! k = Some (Awaiting cur s) ->
  match s with
  | Fulfilled v => results (resume_live thunks k p) = <[cur := Some v]> (results p)
  | Rejected e =>
      results (resume_live thunks k p) = results p /\
      workers (resume_live thunks k p) !! k = Some (Failed e) /\
      (joined p = Pending -> joined (resume_live thunks k p) = Thrown e)
  end.
Proof.
  intros Hk. apply lookup_lt_Some in Hk as Hlt.
  unfold resume_live. rewrite Hk. destruct s as [v|e].
  - cbv zeta. destruct (num_gt _ _); by rewrite ?results_settle.
  - split; [done|]. split.
    + simpl. by apply list_lookup_insert_eq.
    + intros Hj. simpl. by rewrite Hj.
Qed.
Section Blind.

Variable thunks : list (thunk V).
Variable c : option obj.
Hypothesis no_throttle : default ∅ c !! "THROTTLE_MS" = None.
Hypothesis blind : Forall (blind_to c) thunks.

Lemma alike_loop_head C1 C2 cur :
  outside c C1 C2 -> loop_head_live thunks C1 cur = loop_head_live thunks C2 cur.
Proof.
  intros H. unfold loop_head_live.
  destruct (thunks !! cur) as [t|] eqn:E; [|done].
  eapply Forall_lookup in blind; [|exact E]. by rewrite (blind C1 C2 H).
Qed.

Lemma alike_write cur v p q : alike c p q -> alike c (write cur v p) (write cur v q).
Proof.
  intros [(Hi & Hr & Hw & Hj) HC]. repeat split; simpl; try congruence. exact HC.
Qed.

Lemma alike_sleep w p q : alike c p q -> alike c (sleep w p) (sleep w q).
Proof.
  intros [(Hi & Hr & Hw & Hj) HC]. unfold sleep.
  rewrite (outside_prop _ _ _ _ HC no_throttle).
  split; [repeat split; simpl; congruence|exact HC].
Qed.

Lemma alike_claim w p q :
  alike c p q -> alike c (claim_live thunks w p) (claim_live thunks w q).
Proof.
  intros [(Hi & Hr & Hw & Hj) HC]. unfold claim_live.
  rewrite (alike_loop_head _ _ (i p) HC).
  split; [repeat split; simpl; congruence|exact HC].
Qed.

Lemma alike_reject w e p q : alike c p q -> alike c (reject w e p) (reject w e q).
Proof.
  intros [(Hi & Hr & Hw & Hj) HC]. unfold reject. rewrite Hj.
  split; [repeat split; simpl; congruence|exact HC].
Qed.

Lemma alike_settle p q : alike c p q -> alike c (settle p) (settle q).
Proof.
  intros [(Hi & Hr & Hw & Hj) HC]. unfold settle. rewrite Hj, Hw.
  destruct (joined q) eqn:Hq;
    [|split; [repeat split; simpl; congruence|exact HC]..].
  destruct (forallb _ _);
    (split; [repeat split; simpl; congruence|exact HC]).
Qed.

Lemma alike_resume w p q :
  alike c p q -> alike c (resume_live thunks w p) (resume_live thunks w q).
Proof.
  intros H. pose proof H as [(Hi & Hr & Hw & Hj) HC].
  unfold resume_live. rewrite Hw.
  destruct (workers q !! w) as [[cur [v|e]|ms| |e]|]; try done.
  - cbv zeta. simpl CONFIG. rewrite (outside_prop _ _ _ _ HC no_throttle).
    destruct (num_gt _ _).
    + by apply alike_sleep, alike_write.
    + by apply alike_settle, alike_claim, alike_write.
  - by apply alike_reject.
  - by apply alike_settle, alike_claim.
Qed.

Lemma alike_exec s p q :
  alike c p q -> alike c (exec_live thunks s p) (exec_live thunks s q).
Proof.
  destruct s as [w|c']; [apply alike_resume|].
  intros [? HC]. split; [done|]. simpl. by apply outside_setConfig.
Qed.

Lemma alike_execs ss p q :
  alike c p q -> alike c (execs_live thunks ss p) (execs_live thunks ss q).
Proof.
  revert p q. induction ss as [|s ss IH]; intros p q H; [done|].
  simpl. by apply IH, alike_exec.
Qed.

Lemma alike_drain fuel p q :
  alike c p q -> alike c (drain_live thunks fuel p) (drain_live thunks fuel q).
Proof.
  revert p q. induction fuel as [|fuel IH]; intros p q H; [done|].
  simpl. pose proof H as [(Hi & Hr & Hw & Hj) HC]. rewrite Hw.
  destruct (list_find _ _) as [[w k]|]; [|done].
  by apply IH, alike_resume.
Qed.

End Blind.

End PoolThunks.

(** A request reads [TIMEOUT_MS] and [MAX_RETRY] and nothing else. *)
Lemma postJSON_task_blind {J} (w : world J) (c : option obj) :
  default ∅ c !! "TIMEOUT_MS" = None ->
  default ∅ c !! "MAX_RETRY" = None ->
  blind_to c (postJSON_task w).
Proof.
  intros HT HM C1 C2 H. unfold postJSON_task, postJSON.
  rewrite (outside_prop _ _ _ _ H HT), (outside_prop _ _ _ _ H HM).
  destruct w as [f d].
  pose proof (attempts_ignores_store (prop C2 "TIMEOUT_MS") (prop C2 "MAX_RETRY")
                f d d (ToLength (ToNumber (prop C2 "MAX_RETRY"))) 1 C1 C2) as E.
  destruct (attempts _ _ _ _ _ C1) as [r1|], (attempts _ _ _ _ _ C2) as [r2|];
    simpl in *; try done.
  injection E as _ ->. done.
Qed.

(** ** Calls of runWithConcurrency *)

Section Calls.

Context {V : Type}.
Implicit Types (CONFIG : obj) (tasks : list (settled V)) (limit : jsval)
  (ss : list step).

Lemma size_at_least_one CONFIG tasks limit (requested : Z) :
  tasks <> [] ->
  ToNumber (nullish limit (prop CONFIG "CONCURRENCY")) = Some requested ->
  (0 < ToLength (size_of CONFIG limit (length tasks)))%nat.
Proof.
  intros Hne H. rewrite (size_of_integer _ _ _ _ H). simpl.
  destruct tasks; [done|]. simpl length. lia.
Qed.

(** C1: whatever the batch, the limit (an integer, or absent with an
    integer [CONFIG.CONCURRENCY]) and the order in which the workers are
    resumed, a call whose tasks all fulfil returns the sequence of their
    values in batch order; and whenever a call returns a sequence, it has
    the length of the batch and slot [j] holds the value task [j]
    fulfilled with.  In any case, also when the call throws, the result
    array has the length of the batch and a slot that was written holds the
    value of the task at its index. *)
Theorem results_follow_batch_order CONFIG tasks limit ss (requested : Z) :
  ToNumber (nullish limit (prop CONFIG "CONCURRENCY")) = Some requested ->
  let p := runWithConcurrency CONFIG (Arr tasks) limit ss in
  (Forall fulfils tasks -> joined p = Returned (slot_of <$> tasks)) /\
  (forall rs, joined p = Returned rs ->
     length rs = length tasks /\
     forall j t, tasks !! j = Some t ->
       exists v, t = Fulfilled v /\ rs !! j = Some (Some v)) /\
  length (results p) = length tasks /\
  (forall j v, results p !! j = Some (Some v) -> tasks !! j = Some (Fulfilled v)).
Proof.
  intros Hreq p.
  destruct (decide (tasks = [])) as [->|Hne].
  { split; [done|]. split; [intros rs [= <-]; by split|]. by split. }
  destruct (run_inv CONFIG tasks limit ss Hne) as [Hinv Hq].
  fold p in Hinv, Hq.
  assert (Hlen : (0 < length (workers p))%nat).
  { unfold p. rewrite length_workers_run by done.
    by eapply size_at_least_one. }
  pose proof Hinv as [Hc Hpend].
  split.
  - intros Hall.
    pose proof (quiescent_no_failure _ _ Hinv Hq Hall) as Hfin.
    destruct (joined p) as [|rs|e] eqn:Hj.
    + rewrite Hpend in Hfin; done.
    + destruct (core_returned _ _ Hc _ Hj) as [-> _]. f_equal.
      apply list_eq. intros j. rewrite list_lookup_fmap.
      destruct (tasks !! j) as [t|] eqn:Ht.
      * destruct (all_finished_results _ _ Hinv Hlen Hfin j t Ht) as (v & -> & ->).
        done.
      * apply lookup_ge_None. rewrite (core_len _ _ Hc).
        by apply lookup_ge_None.
    + apply (core_thrown _ _ Hc) in Hj.
      eapply Forall_forall in Hall; [|exact Hj]. done.
  - split; [|split; apply Hc].
    intros rs Hj. destruct (core_returned _ _ Hc _ Hj) as [-> Hfin].
    split; [apply Hc|]. by apply all_finished_results.
Qed.


(** C7: for a non-empty batch, the number of workers created is
    [clamp(limit ?? CONFIG.CONCURRENCY, 1, tasks.length)], where the
    requested value is the integer [limit] or, when [limit] is absent, the
    integer [CONFIG.CONCURRENCY]: a request beyond the batch size gives as
    many workers as tasks, a request below 1 gives one worker. *)
Theorem worker_count_is_clamped_limit CONFIG tasks limit ss (requested : Z) :
  tasks <> [] ->
  ToNumber (nullish limit (prop CONFIG "CONCURRENCY")) = Some requested ->
  let n := Z.of_nat (length (workers (runWithConcurrency CONFIG (Arr tasks) limit ss))) in
  let len := Z.of_nat (length tasks) in
  n = clamp requested 1 len /\
  (len <= requested -> n = len) /\
  (requested < 1 -> n = 1).
Proof.
  intros Hne Hreq n len. unfold n.
  rewrite length_workers_run by done.
  rewrite (size_of_integer _ _ _ _ Hreq). simpl ToLength.
  assert (1 <= len) by (unfold len; destruct tasks; [done|simpl length; lia]).
  fold len. unfold clamp. lia.
Qed.

(** C9: on an empty batch the call returns the empty sequence without
    creating a worker or claiming an index, whatever happens next. *)
Theorem empty_batch_returns_at_once CONFIG limit ss :
  let p := runWithConcurrency (V := V) CONFIG (Arr []) limit ss in
  joined p = Returned [] /\ workers p = [] /\ i p = O.
Proof. done. Qed.

(** C5, as amended: a [setConfig] made while a batch is in progress is
    visible to the work started after it, and of the work in flight it
    reaches the throttle only.  Tasks are taken to read the store when they
    are called, which is when their index is claimed.
    - The number of workers is the one fixed from [CONFIG.CONCURRENCY] when
      the call started.
    - An operation in flight keeps the promise it was started with:
      whatever the mutation, and whatever else is done until its worker is
      resumed, the worker waits on that promise, and its settlement then
      writes the value into the slot of its index or, when it is a
      rejection, makes the worker fail and the call, if still pending,
      throw it.
    - A worker in flight has no snapshot: resumed by the value of its task,
      it sleeps if the mutated store holds a positive [THROTTLE_MS], and for
      that long; and the task it starts next, at once or after its sleep,
      is called with the mutated store.
    - Two runs that differ only in that [setConfig] are in the same state at
      every later moment, and however far the workers are then run, provided
      the partial object has no key [THROTTLE_MS] and no key that a task
      reads.
    - A [postJSON] request in flight behaves according to the [TIMEOUT_MS]
      and [MAX_RETRY] read when it started, whatever [setConfig] calls are
      made while it runs; a request started after [setConfig({TIMEOUT_MS: t})]
      hands [t] to every timeout guard, one started after
      [setConfig({MAX_RETRY: m})] issues at most [m] requests, and a request
      reads no other key. *)
Theorem setConfig_mid_run_reaches_later_work_and_throttle {J : Type}
    (C : obj) (thunks : list (thunk V)) limit ss1 ss2 (c : option obj)
    (w : world J) (d : Z -> list (option obj)) :
  let with_c := moment_live thunks C limit (ss1 ++ SetConfig c :: ss2) in
  let without := moment_live thunks C limit (ss1 ++ ss2) in
  (* the number of workers is fixed at the call *)
  length (workers with_c) = ToLength (size_of C limit (length thunks)) /\
  (* an operation in flight *)
  (forall (p : pool V) k cur s ss,
     workers p !! k = Some (Awaiting cur s) ->
     Resume k ∉ ss ->
     let q := execs_live thunks (SetConfig c :: ss) p in
     workers q !! k = Some (Awaiting cur s) /\
     match s with
     | Fulfilled v =>
         results (resume_live thunks k q) = <[cur := Some v]> (results q)
     | Rejected e =>
         results (resume_live thunks k q) = results q /\
         workers (resume_live thunks k q) !! k = Some (Failed e) /\
         (joined q = Pending -> joined (resume_live thunks k q) = Thrown e)
     end) /\
  (* a worker in flight *)
  (forall (p : pool V) k cur v,
     workers p !! k = Some (Awaiting cur (Fulfilled v)) ->
     let C' := setConfig c (CONFIG p) in
     workers (resume_live thunks k (exec_live thunks (SetConfig c) p)) !! k =
     Some (if num_gt (ToNumber (prop C' "THROTTLE_MS")) (Some 0)
           then Sleeping (prop C' "THROTTLE_MS")
           else loop_head_live thunks C' (i p))) /\
  (forall (p : pool V) k ms,
     workers p !! k = Some (Sleeping ms) ->
     workers (resume_live thunks k (exec_live thunks (SetConfig c) p)) !! k =
     Some (loop_head_live thunks (setConfig c (CONFIG p)) (i p))) /\
  (* the whole run *)
  (default ∅ c !! "THROTTLE_MS" = None -> Forall (blind_to c) thunks ->
   same_run with_c without /\
   forall fuel,
     same_run (drain_live thunks fuel with_c) (drain_live thunks fuel without)) /\
  (* a request in flight *)
  (fun r => (trace r, outcome r)) <$> postJSON C (World (fetch w) d) =
  (fun r => (trace r, outcome r)) <$> postJSON C (World (fetch w) (fun _ => [])) /\
  (* a request started after the mutation *)
  (forall r,
     postJSON (setConfig c C) w = Some r ->
     (forall t, default ∅ c !! "TIMEOUT_MS" = Some t ->
        forall a t', Fetch a t' ∈ trace r -> t' = t) /\
     (forall m, default ∅ c !! "MAX_RETRY" = Some (JNum m) ->
        (fetches (trace r) <= Z.to_nat m)%nat)) /\
  (default ∅ c !! "TIMEOUT_MS" = None -> default ∅ c !! "MAX_RETRY" = None ->
   blind_to c (postJSON_task w)).
Proof.
  intros with_c without.
  split; [apply length_workers_moment_live|].
  split; [|split; [|split; [|split; [|split; [|split]]]]].
  - intros p k cur s ss Hk Hss q.
    assert (Hq : workers q !! k = Some (Awaiting cur s)).
    { apply awaiting_execs_live; [done|].
      apply not_elem_of_cons. by split. }
    split; [done|]. by apply resume_live_settles.
  - intros p k cur v Hk C'.
    by apply (resume_live_fulfilled thunks (exec_live thunks (SetConfig c) p) k cur v).
  - intros p k ms Hk.
    by apply (resume_live_sleeping thunks (exec_live thunks (SetConfig c) p) k ms).
  - intros Hc Hb.
    assert (Hm : alike c with_c without).
    { unfold with_c, without, moment_live. rewrite !execs_live_app. simpl.
      apply alike_execs; [done..|].
      split; [done|]. apply outside_mutated. }
    split; [apply Hm|]. intros fuel.
    by apply (alike_drain thunks c Hc Hb fuel with_c without).
  - unfold postJSON. apply attempts_ignores_store.
  - intros r Hr. unfold postJSON in Hr.
    destruct (attempts_shape _ _ _ _ _ _ _ Hr) as (n & Htr & Hn & _).
    split.
    + intros t Ht a t' Hin. rewrite Htr in Hin.
      apply retry_trace_timeout in Hin as ->.
      unfold prop. by rewrite lookup_setConfig_opt, Ht.
    + intros m Hm. rewrite Htr, fetches_retry_trace.
      unfold prop in Hn. by rewrite lookup_setConfig_opt, Hm in Hn.
  - apply postJSON_task_blind.
Qed.

End Calls.

Lemma results_follow_batch_order_witness :
  let p := runWithConcurrency CONFIG0 (Arr three_tasks) (JNum 2) [Resume 1; Resume 0] in
  (Forall fulfils three_tasks -> joined p = Returned (slot_of <$> three_tasks)) /\
  (forall rs, joined p = Returned rs ->
     length rs = length three_tasks /\
     forall j t, three_tasks !! j = Some t ->
       exists v, t = Fulfilled v /\ rs !! j = Some (Some v)) /\
  length (results p) = length three_tasks /\
  (forall j v, results p !! j = Some (Some v) ->
               three_tasks !! j = Some (Fulfilled v)).
Proof.
  apply (results_follow_batch_order CONFIG0 three_tasks (JNum 2) [Resume 1; Resume 0] 2).
  reflexivity.
Defined.


Lemma worker_count_is_clamped_limit_witness :
  let n := Z.of_nat (length (workers
             (runWithConcurrency CONFIG0 (Arr three_tasks) (JNum 100) []))) in
  let len := Z.of_nat (length three_tasks) in
  n = clamp 100 1 len /\ (len <= 100 -> n = len) /\ (100 < 1 -> n = 1).
Proof.
  apply (worker_count_is_clamped_limit CONFIG0 three_tasks (JNum 100) [] 100).
  - discriminate.
  - reflexivity.
Defined.

(** C5, counterexample: one worker runs [three_tasks]; it is created, and
    task 0 is in flight, before any step of the schedule.  The two schedules
    differ only by a [setConfig({THROTTLE_MS: 500})] made while task 0 is in
    flight: without it the worker goes on to task 1 when task 0 fulfils, with
    it the same worker sleeps 500 ms first. *)
Lemma throttle_change_reaches_worker_in_flight :
  workers (moment CONFIG0 three_tasks (JNum 1) []) = [Awaiting 0 (Fulfilled 10)] /\
  workers (moment CONFIG0 three_tasks (JNum 1) [Resume 0])
    = [Awaiting 1 (Fulfilled 11)] /\
  workers (moment CONFIG0 three_tasks (JNum 1)
             [SetConfig (Some {[ "THROTTLE_MS" := JNum 500 ]}); Resume 0])
    = [Sleeping (JNum 500)].
Proof. repeat split. Qed.

Lemma setConfig_mid_run_reaches_later_work_and_throttle_witness :
  let c := Some ({[ "CONCURRENCY" := JNum 1 ]} : obj) in
  same_run (moment_live three_requests CONFIG0 (JNum 2)
              ([Resume 0] ++ SetConfig c :: [Resume 1]))
           (moment_live three_requests CONFIG0 (JNum 2) ([Resume 0] ++ [Resume 1])).
Proof.
  intros c.
  destruct (setConfig_mid_run_reaches_later_work_and_throttle
              CONFIG0 three_requests (JNum 2) [Resume 0] [Resume 1] c
              never_responds (fun _ => []))
    as (_ & _ & _ & _ & H & _).
  apply H; [reflexivity|].
  repeat constructor; by apply postJSON_task_blind.
Defined.

(** One worker runs [three_requests]; request 0 is in flight before any
    step of the schedule and fulfils with 7 at its third attempt.  With a
    [setConfig({MAX_RETRY: 1})] made while it is in flight, request 0 still
    fulfils with 7, and request 1, started afterwards, gives up at its first
    attempt, so that the call throws; without it, all three requests
    fulfil. *)
Lemma mutation_reaches_request_started_later :
  let c := Some ({[ "MAX_RETRY" := JNum 1 ]} : obj) in
  let with_c :=
    drain_live three_requests 20
      (moment_live three_requests CONFIG0 (JNum 1) [SetConfig c]) in
  let without :=
    drain_live three_requests 20
      (moment_live three_requests CONFIG0 (JNum 1) []) in
  workers (moment_live three_requests CONFIG0 (JNum 1) [])
    = [Awaiting 0 (Fulfilled (Some 7))] /\
  results with_c = [Some (Some 7); None; None] /\
  joined with_c = Thrown (new_Error "HTTP 503: busy") /\
  joined without = Returned [Some (Some 7); Some (Some 7); Some (Some 7)].
Proof. vm_compute. repeat split. Qed.

(** * Further properties *)

(** ** postJSON: where the attempts stop *)

Section Stops.

Context {J : Type}.
Implicit Types (w : world J) (r : run J) (CONFIG : obj).

(** Attempts [a], ..., [k - 1] are answered with a retryable status and
    attempt [k] is one that is not retried. *)
Lemma attempts_stop TIMEOUT_MS MAX_RETRY (m k : Z) w (c : completion J) :
  ToNumber MAX_RETRY = Some m ->
  k <= m ->
  final_outcome (fetch w k TIMEOUT_MS) = Some c ->
  forall (n fuel : nat) (a : Z) CONFIG,
    k = a + Z.of_nat n -> (n < fuel)%nat ->
    (forall j, a <= j < k ->
       exists res, fetch w j TIMEOUT_MS = Responded res /\
                   retryable_status (status res) = true) ->
    exists r,
      attempts TIMEOUT_MS MAX_RETRY w fuel a CONFIG = Some r /\
      trace r = retry_trace http_backoff TIMEOUT_MS a (S n) /\
      outcome r = c.
Proof.
  intros HM Hk Hfin. induction n as [|n IH]; intros fuel a CONFIG Ha Hfuel Hall.
  - assert (a = k) as -> by lia.
    destruct fuel as [|fuel]; [lia|].
    rewrite attempts_step by (rewrite HM; simpl; apply Z.leb_le; lia).
    cbv zeta. unfold final_outcome in Hfin.
    destruct (fetch w k TIMEOUT_MS) as [res|e].
    + destruct (ok res).
      * simplify_eq. eexists. repeat split; reflexivity.
      * destruct (retryable_status (status res)); [done|]. simpl andb.
        cbv zeta in Hfin.
        destruct (retriable _); [done|]. simplify_eq. simpl andb.
        eexists. repeat split; reflexivity.
    + destruct (retriable e); [done|]. simplify_eq. simpl andb.
      eexists. repeat split; reflexivity.
  - destruct fuel as [|fuel]; [lia|].
    destruct (Hall a ltac:(lia)) as (res & Hres & Hst).
    destruct (IH fuel (a + 1) (mutate w a CONFIG))
      as (r & Hr & Htr & Hout); [lia|lia| |].
    { intros j Hj. apply Hall. lia. }
    rewrite attempts_step by (rewrite HM; simpl; apply Z.leb_le; lia).
    cbv zeta. rewrite HM, Hres, (retryable_not_ok res Hst), Hst. simpl num_lt.
    replace (a <? m) with true by (symmetry; apply Z.ltb_lt; lia).
    simpl andb. rewrite Hr.
    eexists. split; [reflexivity|]. split; [|exact Hout].
    rewrite retry_trace_SS. cbn [after trace app]. by rewrite Htr.
Qed.

Lemma status_not_ok (res : response J) :
  status res < 200 \/ 300 <= status res -> ok res = false.
Proof.
  intros H. unfold ok. apply andb_false_iff.
  destruct H; [left|right]; apply Z.leb_gt; lia.
Qed.

Lemma status_not_retryable (res : response J) :
  status res <> 429 -> status res < 500 \/ 600 <= status res ->
  retryable_status (status res) = false.
Proof.
  intros H1 H2. unfold retryable_status. apply orb_false_iff. split.
  - by apply Z.eqb_neq.
  - apply andb_false_iff. destruct H2; [left; apply Z.leb_gt|right; apply Z.ltb_ge]; lia.
Qed.

Lemma postJSON_stop CONFIG w (m k : Z) (c : completion J) :
  ToNumber (prop CONFIG "MAX_RETRY") = Some m ->
  1 <= k <= m ->
  (forall j, 1 <= j < k ->
     exists res, fetch w j (prop CONFIG "TIMEOUT_MS") = Responded res /\
                 retryable_status (status res) = true) ->
  final_outcome (fetch w k (prop CONFIG "TIMEOUT_MS")) = Some c ->
  exists r,
    postJSON CONFIG w = Some r /\
    fetches (trace r) = Z.to_nat k /\
    trace r = retry_trace http_backoff (prop CONFIG "TIMEOUT_MS") 1 (Z.to_nat k) /\
    outcome r = c.
Proof.
  intros HM Hk Hall Hfin. unfold postJSON. rewrite HM.
  destruct (attempts_stop (prop CONFIG "TIMEOUT_MS") _ m k w c HM ltac:(lia) Hfin
              (Z.to_nat k - 1) (ToLength (Some m)) 1 CONFIG)
    as (r & Hr & Htr & Hout); [lia|simpl; lia|exact Hall|].
  replace (S (Z.to_nat k - 1)) with (Z.to_nat k) in Htr by lia.
  exists r. split; [exact Hr|].
  split; [by rewrite Htr, fetches_retry_trace|]. by split.
Qed.

(** X1: the first response with a success status ends the call, whatever
    number of attempts remain: after [k - 1] attempts answered with a
    retryable status, a success at attempt [k <= MAX_RETRY] makes the call
    return the parsed body (or throw what [json()] rejects with) after
    exactly [k] requests, with the HTTP backoff delays in between. *)
Theorem postJSON_success_ends_call CONFIG w (m k : Z) (res : response J) :
  ToNumber (prop CONFIG "MAX_RETRY") = Some m ->
  1 <= k <= m ->
  (forall j, 1 <= j < k ->
     exists res', fetch w j (prop CONFIG "TIMEOUT_MS") = Responded res' /\
                  retryable_status (status res') = true) ->
  fetch w k (prop CONFIG "TIMEOUT_MS") = Responded res ->
  200 <= status res <= 299 ->
  exists r,
    postJSON CONFIG w = Some r /\
    fetches (trace r) = Z.to_nat k /\
    trace r = retry_trace http_backoff (prop CONFIG "TIMEOUT_MS") 1 (Z.to_nat k) /\
    outcome r = match json res with inr v => Return v | inl e => Throw e end.
Proof.
  intros HM Hk Hall Hres Hok. apply (postJSON_stop CONFIG w m k); try done.
  rewrite Hres. unfold final_outcome, ok.
  replace (200 <=? status res) with true by (symmetry; apply Z.leb_le; lia).
  replace (status res <=? 299) with true by (symmetry; apply Z.leb_le; lia).
  done.
Qed.

(** X2: a response whose status is neither a success nor retryable (neither
    429 nor 5xx) ends the call at once, although attempts remain, with the
    error [HTTP <status>: <text>], provided that error does not itself pass
    the retry test of the [catch] block. *)
Theorem postJSON_plain_status_fails_at_once CONFIG w (m k : Z)
    (res : response J) :
  ToNumber (prop CONFIG "MAX_RETRY") = Some m ->
  1 <= k <= m ->
  (forall j, 1 <= j < k ->
     exists res', fetch w j (prop CONFIG "TIMEOUT_MS") = Responded res' /\
                  retryable_status (status res') = true) ->
  fetch w k (prop CONFIG "TIMEOUT_MS") = Responded res ->
  status res < 200 \/ 300 <= status res ->
  status res <> 429 ->
  status res < 500 \/ 600 <= status res ->
  retriable (new_Error (http_message (status res) (default "" (text res)))) = false ->
  exists r,
    postJSON CONFIG w = Some r /\
    fetches (trace r) = Z.to_nat k /\
    trace r = retry_trace http_backoff (prop CONFIG "TIMEOUT_MS") 1 (Z.to_nat k) /\
    outcome r =
      Throw (new_Error (http_message (status res) (default "" (text res)))).
Proof.
  intros HM Hk Hall Hres Hok H429 H5xx Hre.
  apply (postJSON_stop CONFIG w m k); try done.
  rewrite Hres. unfold final_outcome.
  rewrite (status_not_ok res Hok), (status_not_retryable res H429 H5xx).
  cbv zeta. by rewrite Hre.
Qed.

(** X3: an exception of [fetch] that is neither an abort nor reads as a
    connectivity failure is rethrown at once, although attempts remain. *)
Theorem postJSON_other_exception_not_retried CONFIG w (m k : Z) (e : error) :
  ToNumber (prop CONFIG "MAX_RETRY") = Some m ->
  1 <= k <= m ->
  (forall j, 1 <= j < k ->
     exists res', fetch w j (prop CONFIG "TIMEOUT_MS") = Responded res' /\
                  retryable_status (status res') = true) ->
  fetch w k (prop CONFIG "TIMEOUT_MS") = Threw e ->
  retriable e = false ->
  exists r,
    postJSON CONFIG w = Some r /\
    fetches (trace r) = Z.to_nat k /\
    trace r = retry_trace http_backoff (prop CONFIG "TIMEOUT_MS") 1 (Z.to_nat k) /\
    outcome r = Throw e.
Proof.
  intros HM Hk Hall Hres Hre. apply (postJSON_stop CONFIG w m k); try done.
  rewrite Hres. unfold final_outcome. by rewrite Hre.
Qed.

(** ** postJSON: the HTTP error caught by its own retry test *)

Lemma includes_ci_append p x s :
  includes_ci p s = true -> includes_ci p (x +:+ s) = true.
Proof.
  intros H. induction x as [|c x IH]; [done|].
  simpl. rewrite IH. apply orb_true_r.
Qed.

Lemma re_network_test_append x s :
  re_network_test s = true -> re_network_test (x +:+ s) = true.
Proof.
  unfold re_network_test. intros H.
  apply orb_true_iff in H as [H|H]; apply orb_true_iff; [left|right];
    by apply includes_ci_append.
Qed.

Lemma String_of_http_error st body :
  body <> "" ->
  String_of (new_Error (http_message st body)) =
  "Error: HTTP " +:+ pretty st +:+ ": " +:+ body.
Proof.
  intros Hb. unfold String_of, new_Error, http_message. simpl.
  repeat case_decide; done.
Qed.

Lemma http_error_retriable st body :
  re_network_test body = true ->
  retriable (new_Error (http_message st body)) = true.
Proof.
  intros H. assert (body <> "") by (intros ->; discriminate).
  unfold retriable. rewrite String_of_http_error by done.
  apply orb_true_iff. right.
  by do 3 apply re_network_test_append.
Qed.

End Stops.

Section Caught.

Context {J : Type}.
Implicit Types (w : world J) (r : run J) (CONFIG : obj).

(** Attempts [a], ..., [m] all answered with a status that is neither a
    success nor retryable, and a body text that the retry test of the
    [catch] block matches. *)
Lemma attempts_caught_exhaust TIMEOUT_MS MAX_RETRY (m : Z) w :
  ToNumber MAX_RETRY = Some m ->
  forall (n fuel : nat) (a : Z) CONFIG,
    m = a + Z.of_nat n -> (n < fuel)%nat ->
    (forall k, a <= k <= m ->
       exists res body,
         fetch w k TIMEOUT_MS = Responded res /\
         ok res = false /\ retryable_status (status res) = false /\
         text res = Some body /\ re_network_test body = true) ->
    exists r res body,
      attempts TIMEOUT_MS MAX_RETRY w fuel a CONFIG = Some r /\
      fetch w m TIMEOUT_MS = Responded res /\ text res = Some body /\
      trace r = retry_trace transport_backoff TIMEOUT_MS a (S n) /\
      outcome r = Throw (new_Error (http_message (status res) body)).
Proof.
  intros HM. induction n as [|n IH]; intros fuel a CONFIG Hm Hfuel Hall.
  - assert (a = m) as -> by lia.
    destruct fuel as [|fuel]; [lia|].
    destruct (Hall m ltac:(lia)) as (res & body & Hres & Hok & Hst & Htx & Hre).
    rewrite attempts_step by (rewrite HM; simpl; apply Z.leb_le; lia).
    cbv zeta. rewrite HM, Hres, Hok, Hst, Htx. simpl num_lt. simpl andb.
    rewrite Z.ltb_irrefl, !andb_false_r.
    eexists _, res, body. repeat split; reflexivity || assumption.
  - destruct fuel as [|fuel]; [lia|].
    destruct (Hall a ltac:(lia)) as (res & body & Hres & Hok & Hst & Htx & Hre).
    destruct (IH fuel (a + 1) (mutate w a CONFIG))
      as (r & resm & bodym & Hr & Hresm & Htxm & Htr & Hout); [lia|lia| |].
    { intros k Hk. apply Hall. lia. }
    rewrite attempts_step by (rewrite HM; simpl; apply Z.leb_le; lia).
    cbv zeta. rewrite HM, Hres, Hok, Hst, Htx. simpl num_lt. simpl andb.
    simpl default. rewrite (http_error_retriable _ _ Hre).
    replace (a <? m) with true by (symmetry; apply Z.ltb_lt; lia).
    simpl andb. rewrite Hr.
    eexists _, resm, bodym. split; [reflexivity|].
    split; [assumption|]. split; [assumption|]. split; [|exact Hout].
    rewrite retry_trace_SS. cbn [after trace app]. by rewrite Htr.
Qed.

(** X4: the error thrown for a status that is not retryable is caught by the
    [catch] block of the same iteration and put to its retry test.  So when
    the body text of such a response (a 404, say) contains [network] or
    [Failed to fetch], in any case, the request is retried after all:
    [MAX_RETRY] attempts are made, [300 * attempt] ms apart, before the
    error [HTTP <status>: <text>] of the last response is thrown. *)
Theorem postJSON_error_text_passing_retry_test CONFIG w (m : Z) :
  ToNumber (prop CONFIG "MAX_RETRY") = Some m ->
  1 <= m ->
  (forall k, 1 <= k <= m ->
     exists res body,
       fetch w k (prop CONFIG "TIMEOUT_MS") = Responded res /\
       (status res < 200 \/ 300 <= status res) /\
       status res <> 429 /\ (status res < 500 \/ 600 <= status res) /\
       text res = Some body /\ re_network_test body = true) ->
  exists r res body,
    postJSON CONFIG w = Some r /\
    fetch w m (prop CONFIG "TIMEOUT_MS") = Responded res /\
    text res = Some body /\
    fetches (trace r) = Z.to_nat m /\
    trace r = retry_trace transport_backoff (prop CONFIG "TIMEOUT_MS") 1 (Z.to_nat m) /\
    outcome r =
      Throw (Err "Error" ("HTTP " +:+ pretty (status res) +:+ ": " +:+ body)).
Proof.
  intros HM Hm Hall. unfold postJSON. rewrite HM.
  destruct (attempts_caught_exhaust (prop CONFIG "TIMEOUT_MS") _ m w HM
              (Z.to_nat m - 1) (ToLength (Some m)) 1 CONFIG)
    as (r & res & body & Hr & Hres & Htx & Htr & Hout); [lia|simpl; lia| |].
  { intros k Hk.
    destruct (Hall k Hk) as (res & body & Hres & Hok & H429 & H5xx & Htx & Hre).
    exists res, body. split; [done|].
    split; [by apply status_not_ok|].
    split; [by apply status_not_retryable|done]. }
  replace (S (Z.to_nat m - 1)) with (Z.to_nat m) in Htr by lia.
  exists r, res, body. split; [exact Hr|]. split; [exact Hres|].
  split; [exact Htx|].
  split; [by rewrite Htr, fetches_retry_trace|]. split; [exact Htr|].
  rewrite Hout. unfold new_Error, http_message.
  assert (body <> "").
  { destruct (Hall m ltac:(lia)) as (res' & body' & Hres' & _ & _ & _ & Htx' & Hre').
    assert (res' = res) as -> by congruence.
    assert (body' = body) as -> by congruence.
    intros ->. discriminate Hre'. }
  by case_decide.
Qed.

(** X5: with [MAX_RETRY] undefined, null, a boolean or an integer, and every
    [fetch] and body read settling, a call of [postJSON] terminates and its
    trace is fixed by the number [n] of requests it issues.  The requests
    are the attempts 1, ..., [n], all under the [TIMEOUT_MS] read when the
    call started; each attempt but the last is followed by exactly one
    sleep, of [min(2000, 200 * 2^(a-1))] ms after a response with status 429
    or 5xx and of [300 * a] ms otherwise, and there is no sleep before the
    first request or after the last.  [n] is at most [MAX_RETRY], and 0
    exactly when [1 <= MAX_RETRY] is false; the call then completes without
    a value, and otherwise it ends as attempt [n] ends.  Every attempt
    before [n] is one the loop retries, and when [n] is below [MAX_RETRY],
    attempt [n] is one it does not. *)
Theorem postJSON_request_budget CONFIG w :
  let T := prop CONFIG "TIMEOUT_MS" in
  let M := ToNumber (prop CONFIG "MAX_RETRY") in
  exists r (n : nat),
    postJSON CONFIG w = Some r /\
    trace r = retry_trace (fun a => pause (fetch w a T) a) T 1 n /\
    (n <= ToLength M)%nat /\
    (n = O <-> num_le (Some 1) M = false) /\
    (forall a, 1 <= a < Z.of_nat n -> final_outcome (fetch w a T) = None) /\
    match n with
    | O => outcome r = Undefined
    | S _ =>
        outcome r = ends_as (fetch w (Z.of_nat n) T) /\
        (num_lt (Some (Z.of_nat n)) M = true ->
         is_Some (final_outcome (fetch w (Z.of_nat n) T)))
    end.
Proof.
  intros T M.
  destruct (postJSON_total CONFIG w) as [r Hr]. exists r.
  unfold postJSON in Hr. fold T in Hr.
  destruct (attempts_shape _ _ _ _ _ _ _ Hr) as (n & Htr & Hn & H0 & Hbefore & Hend).
  exists n. split; [done|]. split; [done|]. split; [done|]. split; [done|].
  split; [intros a Ha; apply Hbefore; lia|].
  destruct n as [|n']; [done|].
  replace (Z.of_nat (S n')) with (1 + Z.of_nat n') by lia. exact Hend.
Qed.

End Caught.

Lemma postJSON_success_ends_call_witness :
  exists r,
    postJSON CONFIG0 (flaky_server 3) = Some r /\
    fetches (trace r) = Z.to_nat 3 /\
    trace r = retry_trace http_backoff (prop CONFIG0 "TIMEOUT_MS") 1 (Z.to_nat 3) /\
    outcome r = match json (Response 200 (Some "{}") (inr 7)) with
                | inr v => Return v
                | inl e => Throw e
                end.
Proof.
  apply (postJSON_success_ends_call CONFIG0 (flaky_server 3) 4 3
           (Response 200 (Some "{}") (inr 7))).
  - reflexivity.
  - lia.
  - intros j Hj. exists (Response 503 (Some "busy") (inl (new_Error "no body"))).
    split; [|reflexivity]. unfold flaky_server. simpl.
    replace (j <? 3) with true by (symmetry; apply Z.ltb_lt; lia). done.
  - reflexivity.
  - simpl. lia.
Defined.

Lemma postJSON_plain_status_fails_at_once_witness :
  exists r,
    postJSON CONFIG0 (always_404 "Not Found") = Some r /\
    fetches (trace r) = Z.to_nat 1 /\
    trace r = retry_trace http_backoff (prop CONFIG0 "TIMEOUT_MS") 1 (Z.to_nat 1) /\
    outcome r = Throw (new_Error (http_message 404 "Not Found")).
Proof.
  apply (postJSON_plain_status_fails_at_once CONFIG0 (always_404 "Not Found") 4 1
           (Response 404 (Some "Not Found") (inl (new_Error "no body")))).
  - reflexivity.
  - lia.
  - intros j Hj. lia.
  - reflexivity.
  - simpl. lia.
  - simpl. lia.
  - simpl. lia.
  - reflexivity.
Defined.

Lemma postJSON_other_exception_not_retried_witness :
  exists r,
    postJSON CONFIG0 (World (fun _ _ => Threw (Err "TypeError" "cyclic object value"))
                            (fun _ => []) : world unit) = Some r /\
    fetches (trace r) = Z.to_nat 1 /\
    trace r = retry_trace http_backoff (prop CONFIG0 "TIMEOUT_MS") 1 (Z.to_nat 1) /\
    outcome r = Throw (Err "TypeError" "cyclic object value").
Proof.
  apply (postJSON_other_exception_not_retried CONFIG0
           (World (fun _ _ => Threw (Err "TypeError" "cyclic object value"))
                  (fun _ => [])) 4 1).
  - reflexivity.
  - lia.
  - intros j Hj. lia.
  - reflexivity.
  - reflexivity.
Defined.

Lemma postJSON_error_text_passing_retry_test_witness :
  exists r res body,
    postJSON CONFIG0 (always_404 "Network Solutions: page not found") = Some r /\
    fetch (always_404 "Network Solutions: page not found") 4 (prop CONFIG0 "TIMEOUT_MS")
      = Responded res /\
    text res = Some body /\
    fetches (trace r) = Z.to_nat 4 /\
    trace r = retry_trace transport_backoff (prop CONFIG0 "TIMEOUT_MS") 1 (Z.to_nat 4) /\
    outcome r =
      Throw (Err "Error" ("HTTP " +:+ pretty (status res) +:+ ": " +:+ body)).
Proof.
  apply (postJSON_error_text_passing_retry_test CONFIG0
           (always_404 "Network Solutions: page not found") 4).
  - reflexivity.
  - lia.
  - intros k _. eexists _, _. split; [reflexivity|]. simpl.
    split; [lia|]. split; [lia|]. split; [lia|]. split; reflexivity.
Defined.

(** ** Request headers *)

Lemma lookup_with_token (h : headers) (tk k : string) :
  with_token h tk !! k = if decide (k ∈ token_headers) then Some tk else h !! k.
Proof.
  unfold with_token. rewrite !lookup_insert.
  destruct (decide (k ∈ token_headers)) as [Hin|Hnin].
  - unfold token_headers in Hin.
    repeat (apply elem_of_cons in Hin as [->|Hin]);
      [by repeat case_decide..|by apply elem_of_nil in Hin].
  - assert (forall x, x ∈ token_headers -> x ≠ k) as Hne by (by intros x ? ->).
    rewrite !decide_False; [done|apply Hne; unfold token_headers..];
      repeat constructor.
Qed.

Lemma lookup_foldl_with_token (tokens : list string) (h : headers) (k : string) :
  foldl with_token h tokens !! k =
  match last tokens with
  | Some tk => if decide (k ∈ token_headers) then Some tk else h !! k
  | None => h !! k
  end.
Proof.
  induction tokens as [|tk tokens IH] using rev_ind; [done|].
  rewrite foldl_app, last_snoc. simpl. rewrite lookup_with_token.
  destruct (decide (k ∈ token_headers)) as [Hin|Hnin]; [done|].
  rewrite IH. by destruct (last tokens).
Qed.

Lemma baseHeaders_lookup_aux (extraHeaders : option headers) (d : page) (k : string) :
  baseHeaders extraHeaders d !! k =
  match last (collectTokens d) with
  | Some tk =>
      if decide (k ∈ token_headers) then Some tk
      else (default ∅ extraHeaders ∪ default_headers) !! k
  | None => (default ∅ extraHeaders ∪ default_headers) !! k
  end.
Proof. unfold baseHeaders. apply lookup_foldl_with_token. Qed.

(** X6: the headers [postJSON] sends.  When the page yields at least one
    token, each of the three token headers carries the last token collected,
    whatever the caller passed under that name; every other header, and the
    token headers when the page yields no token, has the caller's value if
    the caller gave one (also for [Content-Type] and [X-Requested-With]) and
    the default otherwise. *)
Theorem baseHeaders_lookup (extraHeaders : option headers) (d : page) (k : string) :
  baseHeaders extraHeaders d !! k =
  if decide (k ∈ token_headers ∧ collectTokens d ≠ [])
  then last (collectTokens d)
  else match default ∅ extraHeaders !! k with
       | Some v => Some v
       | None => default_headers !! k
       end.
Proof.
  rewrite baseHeaders_lookup_aux.
  assert (Hu : (default ∅ extraHeaders ∪ default_headers) !! k =
               match default ∅ extraHeaders !! k with
               | Some v => Some v
               | None => default_headers !! k
               end).
  { destruct (default ∅ extraHeaders !! k) as [v|] eqn:E.
    - by apply lookup_union_Some_l.
    - by rewrite lookup_union_r. }
  destruct (last (collectTokens d)) as [tk|] eqn:Hl.
  - assert (collectTokens d ≠ []) by (intros E; by rewrite E in Hl).
    destruct (decide (k ∈ token_headers)) as [Hin|Hnin].
    + by rewrite decide_True.
    + by rewrite decide_False by (by intros [? _]).
  - apply last_None in Hl. rewrite Hl.
    by rewrite decide_False by (by intros [_ ?]).
Qed.

Lemma collectTokens_nonempty (d : page) : Forall (fun tk => tk ≠ "") (collectTokens d).
Proof.
  unfold collectTokens. destruct (token_inputs d) as [values|]; [|done].
  assert (Hf : Forall (fun tk => tk ≠ "") (filter (fun v => v ≠ "") values)).
  { apply Forall_forall. intros x Hx. by apply list_elem_of_filter in Hx as [? _]. }
  destruct (token_meta d) as [[content|]|]; try done.
  case_decide; [done|]. apply Forall_app. split; [done|]. by apply Forall_singleton.
Qed.

(** X7: which token is sent.  Tokens are never empty strings.  When the
    page has a token [meta] element with a non-empty [content], that content
    is sent under all three header names, whatever the hidden inputs hold;
    otherwise (no such element, an empty [content], or a query that
    throws) the value of the last hidden input that has one is sent; and a
    page whose first query throws yields no token at all, so that the
    caller's own value for the header, if any, goes out. *)
Theorem token_sent (extraHeaders : option headers) (d : page) (k : string) :
  k ∈ token_headers ->
  Forall (fun tk => tk ≠ "") (collectTokens d) /\
  (forall values content,
     token_inputs d = Some values -> token_meta d = Some (Some content) ->
     content ≠ "" ->
     baseHeaders extraHeaders d !! k = Some content) /\
  (forall values tk,
     token_inputs d = Some values ->
     (forall content, token_meta d = Some (Some content) -> content = "") ->
     last (filter (fun v => v ≠ "") values) = Some tk ->
     baseHeaders extraHeaders d !! k = Some tk) /\
  (token_inputs d = None ->
   baseHeaders extraHeaders d !! k = default ∅ extraHeaders !! k).
Proof.
  intros Hk. split; [apply collectTokens_nonempty|].
  split; [|split].
  - intros values content Hi Hm Hc. rewrite baseHeaders_lookup_aux.
    unfold collectTokens. rewrite Hi, Hm. rewrite decide_False by done.
    rewrite last_snoc. by rewrite decide_True.
  - intros values tk Hi Hc Hl. rewrite baseHeaders_lookup_aux.
    assert (collectTokens d = filter (fun v => v ≠ "") values) as ->.
    { unfold collectTokens. rewrite Hi.
      destruct (token_meta d) as [[content|]|]; try done.
      by rewrite (Hc content eq_refl), decide_True. }
    rewrite Hl. by rewrite decide_True.
  - intros Hi. rewrite baseHeaders_lookup_aux.
    unfold collectTokens. rewrite Hi. simpl.
    destruct (default ∅ extraHeaders !! k) as [v|] eqn:E.
    + by apply lookup_union_Some_l.
    + rewrite lookup_union_r by done.
      unfold default_headers, token_headers in *.
      repeat (apply elem_of_cons in Hk as [->|Hk]); [done..|].
      by apply elem_of_nil in Hk.
Qed.

Lemma token_sent_witness :
  let d := Page (Some ["from-input"; ""; "from-last-input"]) (Some (Some "from-meta")) in
  Forall (fun tk => tk ≠ "") (collectTokens d) /\
  (forall values content,
     token_inputs d = Some values -> token_meta d = Some (Some content) ->
     content ≠ "" ->
     baseHeaders (@None headers) d !! "X-CSRF-TOKEN" = Some content) /\
  (forall values tk,
     token_inputs d = Some values ->
     (forall content, token_meta d = Some (Some content) -> content = "") ->
     last (filter (fun v => v ≠ "") values) = Some tk ->
     baseHeaders (@None headers) d !! "X-CSRF-TOKEN" = Some tk) /\
  (token_inputs d = None ->
   baseHeaders (@None headers) d !! "X-CSRF-TOKEN" = default ∅ (@None headers) !! "X-CSRF-TOKEN").
Proof.
  apply (token_sent (@None headers)
           (Page (Some ["from-input"; ""; "from-last-input"]) (Some (Some "from-meta")))
           "X-CSRF-TOKEN").
  unfold token_headers. do 1 constructor. constructor.
Defined.

(** ** The worker pool: exclusive claims *)

Section PoolExclusive.

Context {V : Type}.
Variable tasks : list (settled V).
Implicit Types (p q : pool V) (k : worker V).

Local Open Scope nat_scope.

Lemma excl_relax w p : exclusive_but None tasks p -> exclusive_but (Some w) tasks p.
Proof.
  intros [H1 H2 H3]. constructor; [done| |done].
  intros w' cur s _ Hw'. by eapply H2.
Qed.

(** [results[cur] = v] by the worker that holds [cur]. *)
Lemma excl_write w cur s v p :
  core tasks p -> exclusive_but None tasks p ->
  workers p !! w = Some (Awaiting cur s) ->
  exclusive_but (Some w) tasks (write cur v p).
Proof.
  intros Hc [H1 H2 H3] Hw. destruct (core_awaiting _ _ Hc _ _ _ Hw) as [_ Hlt].
  constructor; simpl.
  - done.
  - intros w' cur' s' Hne Hw'.
    assert (cur <> cur').
    { intros ->. by rewrite (H1 _ _ _ _ _ Hw Hw') in Hne. }
    rewrite list_lookup_insert_ne by done. by eapply H2.
  - intros j Hj Hlen. rewrite list_lookup_insert_ne by lia. by apply H3.
Qed.

(** Worker [w] leaves its index for a state other than [Awaiting]. *)
Lemma excl_idle w k' p q :
  exclusive_but (Some w) tasks p ->
  match k' with Awaiting _ _ => False | _ => True end ->
  w < length (workers p) ->
  workers q = <[w := k']> (workers p) -> results q = results p -> i q = i p ->
  exclusive_but None tasks q.
Proof.
  intros [H1 H2 H3] Hk Hlen Hws Hrs Hi.
  assert (Hold : forall w' cur s,
    workers q !! w' = Some (Awaiting cur s) ->
    w' <> w /\ workers p !! w' = Some (Awaiting cur s)).
  { intros w' cur s. rewrite Hws. destruct (decide (w = w')) as [->|Hne].
    - rewrite list_lookup_insert_eq by done. intros ?. simplify_eq. done.
    - rewrite list_lookup_insert_ne by done. done. }
  constructor.
  - intros w1 w2 cur s s' Hw1 Hw2.
    apply Hold in Hw1 as [_ Hw1]. apply Hold in Hw2 as [_ Hw2]. by eapply H1.
  - intros w' cur s _ Hw'. apply Hold in Hw' as [Hne Hw'].
    rewrite Hrs. eapply H2; [|done]. congruence.
  - intros j. rewrite Hrs, Hi. apply H3.
Qed.

(** Worker [w] goes back to the loop head. *)
Lemma excl_claim w p :
  core tasks p -> exclusive_but (Some w) tasks p ->
  w < length (workers p) ->
  (forall cur s, workers p !! w = Some (Awaiting cur s) ->
                 exists v, results p !! cur = Some (Some v)) ->
  exclusive_but None tasks (claim tasks w p).
Proof.
  intros Hc [H1 H2 H3] Hlen Hdone.
  assert (Hold : forall w' cur s,
    workers (claim tasks w p) !! w' = Some (Awaiting cur s) ->
    (w' = w /\ cur = i p /\ tasks !! i p = Some s) \/
    (w' <> w /\ workers p !! w' = Some (Awaiting cur s) /\ cur < i p)).
  { intros w' cur s. simpl. destruct (decide (w = w')) as [->|Hne].
    - rewrite list_lookup_insert_eq by done. intros ?. simplify_eq.
      left. split; [done|]. by apply loop_head_awaiting.
    - rewrite list_lookup_insert_ne by done. intros Hw'. right.
      split; [done|]. split; [done|]. by eapply Hc. }
  constructor.
  - intros w1 w2 cur s s' Hw1 Hw2.
    apply Hold in Hw1 as [(-> & ? & _)|(? & Hw1 & ?)];
      apply Hold in Hw2 as [(-> & ? & _)|(? & Hw2 & ?)]; try done; try lia.
    by eapply H1.
  - intros w' cur s _ Hw'. simpl.
    apply Hold in Hw' as [(-> & -> & Ht)|(Hne & Hw' & _)].
    + apply H3; [done|]. by eapply lookup_lt_Some.
    + eapply H2; [|done]. congruence.
  - intros j. simpl. intros Hj Hl. apply H3; [lia|done].
Qed.

Lemma excl_settle p : exclusive_but None tasks p -> exclusive_but None tasks (settle p).
Proof.
  intros [H1 H2 H3].
  constructor; rewrite ?workers_settle, ?results_settle, ?i_settle; done.
Qed.

Lemma excl_resume w p :
  inv tasks p -> exclusive_but None tasks p ->
  exclusive_but None tasks (resume tasks w p).
Proof.
  intros [Hc _] Hx. unfold resume.
  destruct (workers p !! w) as [[cur [v|e]|ms| |e]|] eqn:Hw; try done.
  - assert (Hlen : w < length (workers p)) by by eapply lookup_lt_Some.
    pose proof (excl_write _ _ _ v _ Hc Hx Hw) as Hx'.
    pose proof (core_write _ _ _ _ _ Hc Hw) as Hc'.
    cbv zeta. destruct (num_gt _ _).
    + by apply (excl_idle w (Sleeping (prop (CONFIG p) "THROTTLE_MS")) (write cur v p)).
    + apply excl_settle, excl_claim; try done.
      intros cur' s' Hw'. simpl in Hw'. rewrite Hw in Hw'. simplify_eq.
      exists v. simpl. apply list_lookup_insert_eq.
      rewrite (core_len _ _ Hc).
      destruct (core_awaiting _ _ Hc _ _ _ Hw) as [Ht _].
      by eapply lookup_lt_Some.
  - assert (Hlen : w < length (workers p)) by by eapply lookup_lt_Some.
    apply (excl_idle w (Failed e) p); try done. by apply excl_relax.
  - assert (Hlen : w < length (workers p)) by by eapply lookup_lt_Some.
    apply excl_settle, excl_claim; try done; [by apply excl_relax|].
    intros cur' s' Hw'. rewrite Hw in Hw'. done.
Qed.

Lemma excl_execs ss p :
  inv tasks p -> exclusive_but None tasks p ->
  exclusive_but None tasks (execs tasks ss p).
Proof.
  revert p. induction ss as [|s ss IH]; intros p Hp Hx; [done|].
  simpl. apply IH; [by apply inv_exec|].
  destruct s as [w|c]; [by apply excl_resume|].
  destruct Hx as [H1 H2 H3]. by constructor.
Qed.

Lemma excl_start CONFIG n : exclusive_but None tasks (start tasks CONFIG n).
Proof.
  unfold start. rewrite iter_spawn. apply excl_settle.
  constructor; simpl.
  - intros w w' cur s s' Hw Hw'.
    apply lookup_spawned in Hw as [Hw _]. apply lookup_spawned in Hw' as [Hw' _].
    symmetry in Hw, Hw'.
    apply loop_head_awaiting in Hw as [<- _].
    by apply loop_head_awaiting in Hw' as [<- _].
  - intros w cur s _ Hw. apply lookup_spawned in Hw as [Hw _].
    symmetry in Hw. apply loop_head_awaiting in Hw as [-> Ht].
    apply lookup_replicate_2. by eapply lookup_lt_Some.
  - intros j _ Hj. by apply lookup_replicate_2.
Qed.

Lemma awaiting_le (ws : list (worker V)) : awaiting ws <= length ws.
Proof. induction ws as [|[| | |] ws IH]; simpl; lia. Qed.

Lemma awaiting_spawned n :
  n <= length tasks -> awaiting (loop_head tasks <$> seq 0 n) = n.
Proof.
  induction n as [|n IH]; intros Hn; [done|].
  rewrite seq_S, fmap_app. simpl.
  assert (Happ : forall ws k, awaiting (ws ++ [k]) = awaiting ws + awaiting [k]).
  { intros ws k. induction ws as [|[| | |] ws IHw]; simpl in *; lia. }
  rewrite Happ, IH by lia. unfold loop_head.
  destruct (lookup_lt_is_Some_2 tasks n ltac:(lia)) as [t ->]. simpl. lia.
Qed.

End PoolExclusive.

Section PoolMore.

Context {V : Type}.
Implicit Types (CONFIG : obj) (tasks : list (settled V)) (limit : jsval)
  (ss : list step).

(** X8: concurrency bound.  On a non-empty batch the call starts
    [clamp(requested, 1, tasks.length)] operations at once, and at no later
    moment are more operations in flight than that. *)
Theorem in_flight_bounded CONFIG tasks limit ss (requested : Z) :
  tasks <> [] ->
  ToNumber (nullish limit (prop CONFIG "CONCURRENCY")) = Some requested ->
  Z.of_nat (in_flight (moment CONFIG tasks limit [])) =
    clamp requested 1 (Z.of_nat (length tasks)) /\
  Z.of_nat (in_flight (moment CONFIG tasks limit ss)) <=
    clamp requested 1 (Z.of_nat (length tasks)).
Proof.
  intros Hne Hreq.
  assert (1 <= Z.of_nat (length tasks)) by (destruct tasks; [done|simpl length; lia]).
  assert (Hsize : Z.of_nat (ToLength (size_of CONFIG limit (length tasks))) =
                  clamp requested 1 (Z.of_nat (length tasks))).
  { rewrite (size_of_integer _ _ _ _ Hreq). simpl. unfold clamp. lia. }
  split.
  - unfold in_flight, moment. simpl. rewrite workers_start.
    rewrite awaiting_spawned; [done|]. unfold clamp in Hsize. lia.
  - rewrite <- Hsize, <- (length_workers_moment CONFIG tasks limit ss).
    unfold in_flight. pose proof (awaiting_le (workers (moment CONFIG tasks limit ss))).
    lia.
Qed.

(** X9: exclusive claims.  At every moment of a call, no index is held by
    two workers, and the slot of an index that a worker is waiting on, or
    that no worker has claimed yet, is still empty: a slot is written by the
    one worker that claimed its index, and once. *)
Theorem claims_are_exclusive CONFIG tasks limit ss :
  let p := moment CONFIG tasks limit ss in
  (forall w w' cur s s',
     workers p !! w = Some (Awaiting cur s) ->
     workers p !! w' = Some (Awaiting cur s') -> w = w') /\
  (forall w cur s,
     workers p !! w = Some (Awaiting cur s) ->
     tasks !! cur = Some s /\ results p !! cur = Some None) /\
  (forall j, (i p <= j < length tasks)%nat -> results p !! j = Some None).
Proof.
  intros p.
  assert (Hinv : inv tasks p) by apply inv_moment.
  assert (Hx : exclusive_but None tasks p).
  { apply excl_execs; [apply inv_start|apply excl_start]. }
  destruct Hx as [H1 H2 H3]. destruct Hinv as [Hc _].
  split; [done|]. split.
  - intros w cur s Hw. split; [by eapply Hc|]. by eapply H2.
  - intros j [? ?]. by apply H3.
Qed.

(** X10: every call settles, one way or the other: it returns the values of
    the tasks in batch order when all of them fulfil, and otherwise throws
    the failure of one of the tasks that reject. *)
Theorem call_returns_or_throws_a_task_failure CONFIG tasks limit ss (requested : Z) :
  ToNumber (nullish limit (prop CONFIG "CONCURRENCY")) = Some requested ->
  let p := runWithConcurrency CONFIG (Arr tasks) limit ss in
  (Forall fulfils tasks /\ joined p = Returned (slot_of <$> tasks)) \/
  (exists e, Rejected e ∈ tasks /\ joined p = Thrown e).
Proof.
  intros Hreq p.
  destruct (decide (tasks = [])) as [->|Hne]; [by left|].
  destruct (run_inv CONFIG tasks limit ss Hne) as [Hinv Hq]. fold p in Hinv, Hq.
  assert (Hlen : (0 < length (workers p))%nat).
  { unfold p. rewrite length_workers_run by done. by eapply size_at_least_one. }
  pose proof Hinv as [Hc Hpend].
  destruct (joined p) as [|rs|e] eqn:Hj.
  - (* still pending: some worker is not finished, hence failed *)
    specialize (Hpend eq_refl).
    destruct (forallb is_finished (workers p)) eqn:Hall; [done|].
    assert (exists w k, workers p !! w = Some k /\ is_finished k = false)
      as (w & k & Hw & Hk).
    { clear -Hall. induction (workers p) as [|k ws IH]; [done|].
      simpl in Hall. apply andb_false_iff in Hall as [Hk|Hall].
      - by exists O, k.
      - destruct (IH Hall) as (w & k' & ? & ?). by exists (S w), k'. }
    pose proof (Hq _ _ Hw) as Hs.
    destruct k as [| | |e]; try done.
    destruct (core_failed _ _ Hc _ _ Hw) as [_ [e' He']]. congruence.
  - left. destruct (core_returned _ _ Hc _ Hj) as [-> Hfin].
    pose proof (all_finished_results _ _ Hinv Hlen Hfin) as Hres.
    split.
    + apply Forall_lookup. intros j t Ht. by destruct (Hres j t Ht) as (v & -> & _).
    + f_equal. apply list_eq. intros j. rewrite list_lookup_fmap.
      destruct (tasks !! j) as [t|] eqn:Ht.
      * by destruct (Hres j t Ht) as (v & -> & ->).
      * apply lookup_ge_None. rewrite (core_len _ _ Hc). by apply lookup_ge_None.
  - right. exists e. split; [by apply (core_thrown _ _ Hc)|done].
Qed.

(** X11: a failure does not stop the rest of the batch as long as a worker
    is left.  When the call is over, either every worker has failed, or
    every task that fulfils has its value in its slot, also when the call
    threw. *)
Theorem batch_goes_on_after_failure CONFIG tasks limit ss :
  let p := runWithConcurrency CONFIG (Arr tasks) limit ss in
  (forall w k, workers p !! w = Some k -> exists e, k = Failed e) \/
  (forall j v, tasks !! j = Some (Fulfilled v) -> results p !! j = Some (Some v)).
Proof.
  intros p.
  destruct (decide (tasks = [])) as [->|Hne]; [by right|].
  destruct (run_inv CONFIG tasks limit ss Hne) as [[Hc _] Hq]. fold p in Hc, Hq.
  destruct (existsb is_finished (workers p)) eqn:Hex.
  - right. intros j v Ht.
    assert (exists w, workers p !! w = Some Finished) as [w Hw].
    { clear -Hex. induction (workers p) as [|k ws IH]; [done|].
      simpl in Hex. apply orb_true_iff in Hex as [Hk|Hex].
      - exists O. by destruct k.
      - destruct (IH Hex) as [w ?]. by exists (S w). }
    pose proof (core_finished _ _ Hc _ Hw) as Hi.
    apply lookup_lt_Some in Ht as Hj.
    destruct (core_claimed _ _ Hc j _ ltac:(lia) Ht)
      as [(v' & ? & ?)|[(w' & Hw')|(w' & e & ? & _)]].
    + by simplify_eq.
    + by destruct (Hq _ _ Hw').
    + done.
  - left. intros w k Hw. pose proof (Hq _ _ Hw) as Hs.
    destruct k as [| | |e]; try done; [|by eexists].
    exfalso. clear -Hex Hw. revert w Hw.
    induction (workers p) as [|k ws IH]; intros w Hw; [done|].
    simpl in Hex. apply orb_false_iff in Hex as [Hk Hex].
    destruct w as [|w]; simpl in Hw; [by simplify_eq|]. by eapply IH.
Qed.

End PoolMore.

Lemma in_flight_bounded_witness :
  Z.of_nat (in_flight (moment CONFIG0 three_tasks (JNum 2) [])) =
    clamp 2 1 (Z.of_nat (length three_tasks)) /\
  Z.of_nat (in_flight (moment CONFIG0 three_tasks (JNum 2) [Resume 1; Resume 0])) <=
    clamp 2 1 (Z.of_nat (length three_tasks)).
Proof.
  apply (in_flight_bounded CONFIG0 three_tasks (JNum 2) [Resume 1; Resume 0] 2).
  - discriminate.
  - reflexivity.
Defined.

Lemma call_returns_or_throws_a_task_failure_witness :
  let p := runWithConcurrency CONFIG0 (Arr failing_batch) (JNum 2) [Resume 1] in
  (Forall fulfils failing_batch /\ joined p = Returned (slot_of <$> failing_batch)) \/
  (exists e, Rejected e ∈ failing_batch /\ joined p = Thrown e).
Proof.
  apply (call_returns_or_throws_a_task_failure CONFIG0 failing_batch (JNum 2) [Resume 1] 2).
  reflexivity.
Defined.

(** ** Configuration: sequences of setConfig *)

(** X12: [setConfig] calls compose.  Two calls in a row amount to one call
    with the two partial objects merged, the later one winning on the keys
    they share; and repeating a call changes nothing. *)
Theorem setConfig_compose (c1 c2 : option obj) (C : obj) :
  setConfig c2 (setConfig c1 C) = setConfig (Some (default ∅ c2 ∪ default ∅ c1)) C /\
  setConfig c1 (setConfig c1 C) = setConfig c1 C.
Proof.
  unfold setConfig, Object_assign. simpl. split.
  - by rewrite (assoc_L (∪)).
  - by rewrite (assoc_L (∪)), (idemp_L (∪)).
Qed.

Lemma setConfigs_lookup (cs : list (option obj)) (C : obj) (k : string) :
  (is_Some (C !! k) -> is_Some (foldl (fun C c => setConfig c C) C cs !! k)) /\
  ((forall c, c ∈ cs -> default ∅ c !! k = None) ->
   foldl (fun C c => setConfig c C) C cs !! k = C !! k).
Proof.
  revert C. induction cs as [|c cs IH]; intros C; [done|]. simpl.
  destruct (IH (setConfig c C)) as [IH1 IH2]. split.
  - intros HC. apply IH1. rewrite lookup_setConfig_opt.
    by destruct (default ∅ c !! k).
  - intros Hcs. rewrite IH2.
    + rewrite lookup_setConfig_opt, (Hcs c); [done|]. by left.
    + intros c' Hc'. apply Hcs. by right.
Qed.

(** X13: [setConfig] never removes a key.  After any sequence of calls, a
    key that was there is still there, so that the snapshot of [getConfig]
    always has the five keys the configuration starts with; and a key that
    none of the partial objects mentions keeps its value. *)
Theorem config_keys_persist (cs : list (option obj)) (C : obj) (k : string) :
  let after := foldl (fun C c => setConfig c C) C cs in
  (is_Some (C !! k) -> is_Some (getConfig after !! k)) /\
  ((forall c, c ∈ cs -> default ∅ c !! k = None) ->
   getConfig after !! k = C !! k) /\
  (C = CONFIG0 -> k ∈ config_keys -> is_Some (getConfig after !! k)).
Proof.
  intros after. unfold after. rewrite getConfig_id.
  destruct (setConfigs_lookup cs C k) as [H1 H2].
  split; [done|]. split; [done|].
  intros -> Hk. apply H1. unfold config_keys in Hk.
  repeat (apply elem_of_cons in Hk as [->|Hk]); [by eexists..|].
  by apply elem_of_nil in Hk.
Qed.

(** ** Storage helpers and the minimized state *)

(** X14: storage round trip.  A value written with [setLS] is what [getLS]
    reads back under that key when the storage takes the write; other keys
    read as before in any case; a write the storage does not take is dropped
    without a trace; and a key that is missing, or a storage that cannot be
    read, gives the default. *)
Theorem storage_round_trip (k k' v : string) (d : option string) (s : storage) :
  (denied s = false -> refuses s k v = false -> getLS k d (setLS k v s) = v) /\
  (k' <> k -> getLS k' d (setLS k v s) = getLS k' d s) /\
  (denied s || refuses s k v = true -> setLS k v s = s) /\
  (denied s = true \/ items s !! k = None -> getLS k d s = default "" d).
Proof.
  unfold getLS, setLS. repeat split.
  - intros Hd Hr. rewrite Hd, Hr. simpl. by rewrite lookup_insert_eq.
  - intros Hne. destruct (denied s || refuses s k v) eqn:E; [done|].
    apply orb_false_iff in E as [Hd _]. simpl. rewrite Hd.
    by rewrite lookup_insert_ne.
  - by intros ->.
  - intros [->| ->]; [done|]. by destruct (denied s).
Qed.

Lemma min_key_inj (a b : string) : "min:" +:+ a = "min:" +:+ b -> a = b.
Proof. intros H. simpl in H. by simplify_eq. Qed.

(** X15: toggling.  A toggle hides a body that was shown and shows one that
    was hidden, and returns whether the body is shown afterwards; so two
    toggles in a row restore the visibility the body had, whatever its
    [display] value was and whether or not the storage works. *)
Theorem applyMinState_toggle_twice (display storageKey : string) (s : storage) :
  let '(b1, s1, r1) := applyMinState (Some display) storageKey true s in
  let '(b2, s2, r2) := applyMinState b1 storageKey true s1 in
  b1 = Some (if r1 then "" else "none") /\
  r1 = bool_decide (display = "none") /\
  b2 = Some (if r2 then "" else "none") /\
  r2 = bool_decide (display <> "none").
Proof.
  unfold applyMinState. destruct (bool_decide (display = "none")) eqn:E; simpl.
  - apply bool_decide_eq_true in E. subst. done.
  - apply bool_decide_eq_false in E. simpl.
    repeat split; try done. symmetry. by apply bool_decide_eq_true.
Qed.

(** X16: the minimized state survives a reload.  When the storage takes
    the write of a toggle, a later call without [toggle] under the same
    key, on a body in any state, leaves that body as the toggle left the
    first one and returns the same value; and it is not affected by toggles
    under another key. *)
Theorem applyMinState_restores (display fresh storageKey other : string)
    (s : storage) :
  denied s = false ->
  (forall v, refuses s ("min:" +:+ storageKey) v = false) ->
  let '(b1, s1, r1) := applyMinState (Some display) storageKey true s in
  applyMinState (Some fresh) storageKey false s1 = (b1, s1, r1) /\
  (other <> storageKey ->
   applyMinState (Some fresh) other false s1 = (
     (applyMinState (Some fresh) other false s).1.1, s1,
     (applyMinState (Some fresh) other false s).2)).
Proof.
  intros Hd Hr. unfold applyMinState.
  assert (Hget : forall v, getLS ("min:" +:+ storageKey) (Some "0")
                   (setLS ("min:" +:+ storageKey) v s) = v).
  { intros v. unfold getLS, setLS. rewrite Hd, Hr. simpl.
    by rewrite lookup_insert_eq. }
  assert (Hoth : forall v, other <> storageKey ->
    getLS ("min:" +:+ other) (Some "0") (setLS ("min:" +:+ storageKey) v s) =
    getLS ("min:" +:+ other) (Some "0") s).
  { intros v Hne. unfold getLS, setLS. rewrite Hd, Hr. simpl.
    rewrite lookup_insert_ne; [done|]. intros H. by apply min_key_inj in H. }
  cbv zeta. split.
  - rewrite Hget. by destruct (negb (bool_decide (display = "none"))).
  - intros Hne. by rewrite Hoth.
Qed.

(** X17: without storage the minimized state is lost.  When every access
    to the storage throws, a toggle still hides or shows the body but leaves
    no trace, and a call without [toggle] shows the body and returns [true],
    whatever was toggled before. *)
Theorem applyMinState_without_storage (display storageKey : string) (toggle : bool)
    (s : storage) :
  denied s = true ->
  (applyMinState (Some display) storageKey toggle s).1.2 = s /\
  applyMinState (Some display) storageKey false s = (Some "", s, true).
Proof.
  intros Hd. unfold applyMinState, setLS, getLS. rewrite Hd. simpl.
  split; [by destruct toggle|done].
Qed.

Lemma applyMinState_restores_witness :
  let s := Storage ∅ false (fun _ _ => false) in
  let '(b1, s1, r1) := applyMinState (Some "block") "panel" true s in
  applyMinState (Some "") "panel" false s1 = (b1, s1, r1) /\
  ("other" <> "panel" ->
   applyMinState (Some "") "other" false s1 = (
     (applyMinState (Some "") "other" false s).1.1, s1,
     (applyMinState (Some "") "other" false s).2)).
Proof.
  apply (applyMinState_restores "block" "" "panel" "other"
           (Storage ∅ false (fun _ _ => false))); reflexivity.
Defined.

Lemma applyMinState_without_storage_witness :
  let s := Storage {[ "min:panel" := "1" ]} true (fun _ _ => false) in
  (applyMinState (Some "block") "panel" true s).1.2 = s /\
  applyMinState (Some "block") "panel" false s = (Some "", s, true).
Proof.
  apply (applyMinState_without_storage "block" "panel" true
           (Storage {[ "min:panel" := "1" ]} true (fun _ _ => false))).
  reflexivity.
Defined.

(** ** fixWidth *)

Lemma fixWidth_long (t : str16) (n : Z) :
  1 <= n -> n < Z.of_nat (length t) ->
  fixWidth (Some t) n = take (Z.to_nat (n - 1)) t ++ [ELLIPSIS].
Proof.
  intros H1 H2. unfold fixWidth, slice0. simpl default.
  replace (n <? Z.of_nat (length t)) with true by (symmetry; apply Z.ltb_lt; lia).
  replace (n - 1 <? 0) with false by (symmetry; apply Z.ltb_ge; lia).
  by rewrite Z.min_l by lia.
Qed.

Lemma fixWidth_short (s : option str16) (n : Z) :
  Z.of_nat (length (default [] s)) <= n ->
  fixWidth s n =
  default [] s ++ replicate (Z.to_nat (n - Z.of_nat (length (default [] s)))) SPACE.
Proof.
  intros H. unfold fixWidth, padEnd.
  by replace (n <? Z.of_nat (length (default [] s))) with false
    by (symmetry; apply Z.ltb_ge; lia).
Qed.

Lemma fixWidth_length_aux (s : option str16) (n : Z) :
  1 <= n -> Z.of_nat (length (fixWidth s n)) = n.
Proof.
  intros Hn. destruct (Z_lt_le_dec n (Z.of_nat (length (default [] s)))) as [Hl|Hl].
  - destruct s as [t|]; [|simpl in Hl; lia]. simpl in Hl.
    rewrite fixWidth_long by done.
    rewrite length_app, length_take. simpl. lia.
  - rewrite fixWidth_short by done.
    rewrite length_app, length_replicate. lia.
Qed.

(** X18: [fixWidth] fixes the width.  For [n >= 1] the result is exactly
    [n] code units long: a string that fits is kept and padded with spaces,
    a longer one is cut to its first [n - 1] units followed by an ellipsis;
    [null] and [undefined] give [n] spaces. *)
Theorem fixWidth_length (s : option str16) (n : Z) :
  1 <= n ->
  Z.of_nat (length (fixWidth s n)) = n /\
  (forall t, s = Some t -> Z.of_nat (length t) <= n ->
     exists pad, fixWidth s n = t ++ replicate pad SPACE) /\
  (forall t, s = Some t -> n < Z.of_nat (length t) ->
     fixWidth s n = take (Z.to_nat (n - 1)) t ++ [ELLIPSIS]) /\
  (s = None -> fixWidth s n = replicate (Z.to_nat n) SPACE).
Proof.
  intros Hn. split; [by apply fixWidth_length_aux|]. repeat split.
  - intros t -> Hl. eexists. by rewrite fixWidth_short.
  - intros t -> Hl. by apply fixWidth_long.
  - intros ->. rewrite fixWidth_short by (simpl; lia). simpl.
    f_equal. lia.
Qed.

(** X19: [fixWidth] is idempotent: for [n >= 1], fixing the width of a
    result again to the same [n] changes nothing. *)
Theorem fixWidth_idempotent (s : option str16) (n : Z) :
  1 <= n -> fixWidth (Some (fixWidth s n)) n = fixWidth s n.
Proof.
  intros Hn. pose proof (fixWidth_length_aux s n Hn) as Hl.
  rewrite (fixWidth_short (Some (fixWidth s n))) by (simpl; lia).
  simpl default. rewrite Hl, Z.sub_diag. simpl. by rewrite app_nil_r.
Qed.

(** X20: widths below 1 are not honoured.  For [n <= 0] and a non-empty
    string the test [t.length > n] holds and [slice(0, n - 1)] counts from
    the end: the result is the string without its last [1 - n] units,
    followed by an ellipsis, hence never of width [n]. *)
Theorem fixWidth_width_below_one (t : str16) (n : Z) :
  n <= 0 -> t <> [] ->
  fixWidth (Some t) n =
    take (Z.to_nat (Z.of_nat (length t) + n - 1)) t ++ [ELLIPSIS] /\
  n < Z.of_nat (length (fixWidth (Some t) n)).
Proof.
  intros Hn Ht.
  assert (0 < Z.of_nat (length t)) by (destruct t; [done|simpl length; lia]).
  assert (E : fixWidth (Some t) n =
              take (Z.to_nat (Z.of_nat (length t) + n - 1)) t ++ [ELLIPSIS]).
  { unfold fixWidth, slice0. simpl default.
    replace (n <? Z.of_nat (length t)) with true by (symmetry; apply Z.ltb_lt; lia).
    replace (n - 1 <? 0) with true by (symmetry; apply Z.ltb_lt; lia).
    f_equal. f_equal. lia. }
  split; [done|]. rewrite E, length_app. simpl. lia.
Qed.

Lemma fixWidth_length_witness :
  Z.of_nat (length (fixWidth (Some [72; 101; 108; 108; 111; 33]%N) 4)) = 4 /\
  (forall t, Some [72; 101; 108; 108; 111; 33]%N = Some t -> Z.of_nat (length t) <= 4 ->
     exists pad, fixWidth (Some [72; 101; 108; 108; 111; 33]%N) 4 = t ++ replicate pad SPACE) /\
  (forall t, Some [72; 101; 108; 108; 111; 33]%N = Some t -> 4 < Z.of_nat (length t) ->
     fixWidth (Some [72; 101; 108; 108; 111; 33]%N) 4 = take (Z.to_nat (4 - 1)) t ++ [ELLIPSIS]) /\
  (Some [72; 101; 108; 108; 111; 33]%N = None ->
   fixWidth (Some [72; 101; 108; 108; 111; 33]%N) 4 = replicate (Z.to_nat 4) SPACE).
Proof. apply (fixWidth_length (Some [72; 101; 108; 108; 111; 33]%N) 4). lia. Defined.

Lemma fixWidth_idempotent_witness :
  fixWidth (Some (fixWidth (Some [72; 105]%N) 5)) 5 = fixWidth (Some [72; 105]%N) 5.
Proof. apply (fixWidth_idempotent (Some [72; 105]%N) 5). lia. Defined.

Lemma fixWidth_width_below_one_witness :
  fixWidth (Some [72; 105; 33]%N) 0 =
    take (Z.to_nat (Z.of_nat (length [72; 105; 33]%N) + 0 - 1)) [72; 105; 33]%N ++ [ELLIPSIS] /\
  0 < Z.of_nat (length (fixWidth (Some [72; 105; 33]%N) 0)).
Proof.
  apply (fixWidth_width_below_one [72; 105; 33]%N 0); [lia|discriminate].
Defined.

(** ** z-index stack *)

Lemma bringToFront_dom (el : option nat) (u : ui) (id : nat) :
  is_Some (elements (bringToFront el u) !! id) <-> is_Some (elements u !! id).
Proof.
  destruct el as [x|]; [|done]. simpl.
  destruct (decide (x = id)) as [->|Hne].
  - rewrite lookup_alter_eq. by rewrite fmap_is_Some.
  - by rewrite lookup_alter_ne.
Qed.

(** After a sequence of [bringToFront] calls: [zTop] has grown by the number
    of calls on an element, and each element raised holds a z-index above
    the initial [zTop] and at most the current one. *)
Lemma bringToFront_sequence (ops : list (option nat)) (u : ui) :
  let u1 := foldl (fun u el => bringToFront el u) u ops in
  zTop u1 = zTop u + Z.of_nat (length (omap (fun el => el) ops)) /\
  (forall id, is_Some (elements u1 !! id) <-> is_Some (elements u !! id)) /\
  (forall id, Some id ∈ ops -> is_Some (elements u !! id) ->
     exists e z, elements u1 !! id = Some e /\ style_zIndex e = pretty z /\
                 zTop u < z <= zTop u1).
Proof.
  induction ops as [|el ops IH] using rev_ind.
  { simpl. split; [lia|]. split; [done|]. intros id H. by apply elem_of_nil in H. }
  cbv zeta in *. rewrite foldl_app. simpl.
  set (u1 := foldl (fun u el => bringToFront el u) u ops) in *.
  destruct IH as (Hz & Hdom & Hup).
  rewrite omap_app, length_app. simpl.
  destruct el as [x|]; simpl.
  - split; [lia|]. split.
    + intros id. rewrite <- Hdom. apply (bringToFront_dom (Some x) u1 id).
    + intros id Hin Hid. destruct (decide (x = id)) as [->|Hne].
      * apply Hdom in Hid as [e He].
        exists (set_zIndex (pretty (zTop u1 + 1)) e), (zTop u1 + 1).
        rewrite lookup_alter_eq, He. simpl. split; [done|]. split; [done|]. lia.
      * apply elem_of_app in Hin as [Hin|Hin].
        2:{ apply list_elem_of_singleton in Hin. by simplify_eq. }
        destruct (Hup id Hin Hid) as (e & z & He & Hze & Hzr).
        exists e, z. rewrite lookup_alter_ne by done. split; [done|].
        split; [done|]. lia.
  - split; [lia|]. split; [done|].
    intros id Hin Hid. apply elem_of_app in Hin as [Hin|Hin].
    2:{ apply list_elem_of_singleton in Hin. done. }
    destruct (Hup id Hin Hid) as (e & z & He & Hze & Hzr).
    exists e, z. split; [done|]. split; [done|]. lia.
Qed.

(** X21: the element brought to front is on top.  After any sequence of
    [bringToFront] calls, one more call on an element gives it the z-index
    [String(zTop)], [zTop] having grown by one for each call on an element;
    and every other element raised so far holds a z-index strictly below
    it. *)
Theorem bringToFront_on_top (ops : list (option nat)) (id : nat) (u : ui)
    (e : element) :
  elements u !! id = Some e ->
  let u2 := bringToFront (Some id) (foldl (fun u el => bringToFront el u) u ops) in
  zTop u2 = zTop u + Z.of_nat (length (omap (fun el => el) ops)) + 1 /\
  (exists e', elements u2 !! id = Some e' /\ style_zIndex e' = pretty (zTop u2)) /\
  (forall id', id' <> id -> Some id' ∈ ops -> is_Some (elements u !! id') ->
     exists e' z, elements u2 !! id' = Some e' /\ style_zIndex e' = pretty z /\
                  zTop u < z < zTop u2).
Proof.
  intros He u2.
  destruct (bringToFront_sequence ops u) as (Hz & Hdom & Hup).
  set (u1 := foldl (fun u el => bringToFront el u) u ops) in *.
  unfold u2. simpl. split; [lia|]. split.
  - assert (is_Some (elements u1 !! id)) as [e1 He1] by (apply Hdom; by eexists).
    eexists. rewrite lookup_alter_eq, He1. by split.
  - intros id' Hne Hin Hid.
    destruct (Hup id' Hin Hid) as (e' & z & He' & Hze & Hzr).
    exists e', z. rewrite lookup_alter_ne by done. split; [done|].
    split; [done|]. lia.
Qed.

Lemma bringToFront_on_top_witness :
  let u := UI Z_BASE {[ 1%nat := Element "" "" "" "" false true;
                        2%nat := Element "" "" "" "" false true ]} in
  let u2 := bringToFront (Some 1%nat)
              (foldl (fun u el => bringToFront el u) u [Some 1%nat; None; Some 2%nat]) in
  zTop u2 = zTop u + Z.of_nat (length (omap (fun el => el) [Some 1%nat; None; Some 2%nat])) + 1 /\
  (exists e', elements u2 !! 1%nat = Some e' /\ style_zIndex e' = pretty (zTop u2)) /\
  (forall id', id' <> 1%nat -> Some id' ∈ [Some 1%nat; None; Some 2%nat] ->
     is_Some (elements u !! id') ->
     exists e' z, elements u2 !! id' = Some e' /\ style_zIndex e' = pretty z /\
                  zTop u < z < zTop u2).
Proof.
  apply (bringToFront_on_top [Some 1%nat; None; Some 2%nat] 1%nat
           (UI Z_BASE {[ 1%nat := Element "" "" "" "" false true;
                         2%nat := Element "" "" "" "" false true ]})
           (Element "" "" "" "" false true)).
  reflexivity.
Defined.

(** ** Initial placement *)

Lemma panel_count_insert (els : gmap nat element) (id : nat) (e : element) :
  panel_count (<[id := e]> els) =
  panel_count (delete id els) +
  (if data_esm_panel e && in_document e then 1 else 0).
Proof.
  unfold panel_count. rewrite <- insert_delete_eq.
  assert (Hnone : filter is_panel (delete id els) !! id = None).
  { apply map_lookup_filter_None. left. apply lookup_delete_eq. }
  destruct (data_esm_panel e && in_document e) eqn:E.
  - apply andb_true_iff in E as [E1 E2].
    rewrite map_filter_insert_True by done.
    rewrite map_size_insert_None by done. lia.
  - rewrite map_filter_insert_False.
    + rewrite delete_delete_eq || rewrite delete_idemp. lia.
    + unfold is_panel. simpl. intros [E1 E2]. by rewrite E1, E2 in E.
Qed.

(** X22: initial placement.  A panel that has both [left] and [top] set is
    left as it is.  Any other panel is marked and placed at
    [left = top = 20 + 24 * k] px, with [right] set to [auto], where [k] is
    the number of other marked elements in the document; unless the panel is
    not itself in the document, which puts it one step further up and left
    (at -4px when there is no other panel). *)
Theorem autoPlaceIfNeeded_offset (id : nat) (u : ui) (e : element) :
  elements u !! id = Some e ->
  let others := panel_count (delete id (elements u)) in
  let u' := autoPlaceIfNeeded (Some id) u in
  (style_left e <> "" /\ style_top e <> "" -> u' = u) /\
  (style_left e = "" \/ style_top e = "" ->
   let offset := if in_document e then 20 + 24 * others else 20 + 24 * (others - 1) in
   zTop u' = zTop u /\
   elements u' =
     <[id := Element (pretty offset +:+ "px") (pretty offset +:+ "px") "auto"
                     (style_zIndex e) true (in_document e)]> (elements u)).
Proof.
  intros He others u'. unfold u', autoPlaceIfNeeded. rewrite He. split.
  - intros [Hl Ht]. by rewrite !bool_decide_eq_true_2.
  - intros Hno.
    assert (bool_decide (style_left e <> "") && bool_decide (style_top e <> "") = false)
      as ->.
    { apply andb_false_iff.
      destruct Hno as [Hno|Hno]; [left|right]; apply bool_decide_eq_false; by rewrite Hno; intros ?. }
    cbv zeta. rewrite panel_count_insert. simpl. fold others.
    split; [done|]. destruct (in_document e); do 4 f_equal; lia.
Qed.

Lemma autoPlaceIfNeeded_offset_witness :
  let u := UI Z_BASE {[ 1%nat := Element "20px" "20px" "auto" "" true true;
                        2%nat := Element "" "" "" "" false true ]} in
  let e := Element "" "" "" "" false true in
  let others := panel_count (delete 2%nat (elements u)) in
  let u' := autoPlaceIfNeeded (Some 2%nat) u in
  (style_left e <> "" /\ style_top e <> "" -> u' = u) /\
  (style_left e = "" \/ style_top e = "" ->
   let offset := if in_document e then 20 + 24 * others else 20 + 24 * (others - 1) in
   zTop u' = zTop u /\
   elements u' =
     <[2%nat := Element (pretty offset +:+ "px") (pretty offset +:+ "px") "auto"
                        (style_zIndex e) true (in_document e)]> (elements u)).
Proof.
  apply (autoPlaceIfNeeded_offset 2%nat
           (UI Z_BASE {[ 1%nat := Element "20px" "20px" "auto" "" true true;
                         2%nat := Element "" "" "" "" false true ]})
           (Element "" "" "" "" false true)).
  reflexivity.
Defined.

(** ** Dragging *)

(** X23: a dragged panel stays in the viewport.  While a drag is on,
    [onMove] never places the panel less than 10 px from the left and top
    edges of the viewport; when the panel fits in the viewport with that
    margin, it also stays 10 px clear of the right and bottom edges; and a
    panel too large for that is pinned at the left or top margin. *)
Theorem onMove_stays_in_viewport (e : pointer) (v : viewport) (d : drag) :
  dragging d = true ->
  exists nx ny,
    onMove_target e v d = Some (nx, ny) /\
    scrollX v + 10 <= nx /\ scrollY v + 10 <= ny /\
    (offsetWidth v + 20 <= innerWidth v ->
     nx + offsetWidth v <= scrollX v + innerWidth v - 10) /\
    (offsetHeight v + 20 <= innerHeight v ->
     ny + offsetHeight v <= scrollY v + innerHeight v - 10) /\
    (innerWidth v <= offsetWidth v + 20 -> nx = scrollX v + 10) /\
    (innerHeight v <= offsetHeight v + 20 -> ny = scrollY v + 10).
Proof.
  intros Hd. unfold onMove_target, margin. rewrite Hd. simpl negb. cbv zeta.
  eexists _, _. split; [reflexivity|]. repeat split; lia.
Qed.

(** X24: the panel follows the pointer.  A press with the main button (or
    with no button reported) outside the interactive elements starts a drag
    and raises the panel; from then on, the window being as it was at the
    press and as long as the pointer does not push the panel out of the
    viewport, [onMove] places the panel where it was at the press, moved by
    exactly the displacement of the pointer.  Any other press changes
    nothing. *)
Theorem drag_follows_pointer (panelEl : nat) (e0 e1 : pointer) (v : viewport)
    (d : drag) (u : ui) :
  let '(d1, u1) := onDown panelEl e0 v d u in
  let tx := rect_left v + scrollX v
            + (default 0 (clientX e1) - default 0 (clientX e0)) in
  let ty := rect_top v + scrollY v
            + (default 0 (clientY e1) - default 0 (clientY e0)) in
  (on_interactive e0 = false -> (button e0 = None \/ button e0 = Some 0) ->
   dragging d1 = true /\ u1 = bringToFront (Some panelEl) u /\
   (scrollX v + 10 <= tx <= scrollX v + innerWidth v - offsetWidth v - 10 ->
    scrollY v + 10 <= ty <= scrollY v + innerHeight v - offsetHeight v - 10 ->
    onMove_target e1 v d1 = Some (tx, ty))) /\
  (on_interactive e0 = true \/ (exists b, button e0 = Some b /\ b <> 0) ->
   d1 = d /\ u1 = u).
Proof.
  unfold onDown.
  destruct (on_interactive e0) eqn:Hi.
  { split; [done|]. by intros _. }
  destruct (button e0) as [b|] eqn:Hb.
  - destruct (Z.eqb_spec b 0) as [->|Hne]; simpl negb; cbv iota.
    + split.
      * intros _ _. split; [done|]. split; [done|].
        intros Hx Hy. unfold onMove_target, grab, margin. simpl. f_equal. f_equal; lia.
      * intros [?|(b & ? & ?)]; [done|]. by simplify_eq.
    + split; [|done]. intros _ [?|?]; [done|]. by simplify_eq.
  - split.
    + intros _ _. split; [done|]. split; [done|].
      intros Hx Hy. unfold onMove_target, grab, margin. simpl. f_equal. f_equal; lia.
    + intros [?|(b & ? & ?)]; done.
Qed.

Lemma onMove_stays_in_viewport_witness :
  exists nx ny,
    onMove_target (Pointer false (Some 0) (Some 5000) (Some (-40)))
                  (Viewport 0 100 1280 720 300 200 50 60)
                  (Drag true 10 10 50 160) = Some (nx, ny) /\
    0 + 10 <= nx /\ 100 + 10 <= ny /\
    (300 + 20 <= 1280 -> nx + 300 <= 0 + 1280 - 10) /\
    (200 + 20 <= 720 -> ny + 200 <= 100 + 720 - 10) /\
    (1280 <= 300 + 20 -> nx = 0 + 10) /\
    (720 <= 200 + 20 -> ny = 100 + 10).
Proof.
  apply (onMove_stays_in_viewport
           (Pointer false (Some 0) (Some 5000) (Some (-40)))
           (Viewport 0 100 1280 720 300 200 50 60) (Drag true 10 10 50 160)).
  reflexivity.
Defined.
